(** * touchpad-emulator: a shallow embedding of [touchpad-emulator.c]

    The program relays the events of a physical touchpad onto a uinput
    device built from an evemu recording, rescaling the positional axes
    from the source's axis range to the destination's.

    Layout of this file:
    - C scalars: [int] with its range, [double] as IEEE 754 binary64
      (the standard library's [SpecFloat], precision 53, emax 1024);
    - [map_event], [handle_event], [mainloop] and [main], translated
      function by function; the outside world (poll, libevdev, evemu,
      the file system) is an explicit, scripted state;
    - the vocabulary of the properties, among it the real-number reading
      of binary64 (value of a double, correct rounding);
    - the properties of the specification; those of the coordinate
      transform rest on a proof that the operations of [SpecFloat] round
      the exact result to nearest, ties to even. *)

From Stdlib Require Import ZArith List Bool String Lia.
From Stdlib Require Import Reals ROrderedType Lra.
From Stdlib Require Import SpecFloat.
From Stdlib Require DecimalString HexadecimalString.
Import ListNotations.
Local Open Scope Z_scope.

(** ** C scalars *)

Module CInt.

Definition INT_MIN : Z := -2147483648.
Definition INT_MAX : Z := 2147483647.

Definition in_int (z : Z) : bool := (INT_MIN <=? z) && (z <=? INT_MAX).

(** Signed [int] subtraction. An overflowing signed operation has no
    defined result in C: the embedding returns [None] there. *)
Definition int_sub (a b : Z) : option Z :=
  if in_int (a - b) then Some (a - b) else None.

Definition int_mul (a b : Z) : option Z :=
  if in_int (a * b) then Some (a * b) else None.

(** The macros [min] and [max] of the source, on [int]. *)
Definition min (a b : Z) : Z := if a <? b then a else b.
Definition max (a b : Z) : Z := if a >? b then a else b.

End CInt.

Module CDouble.

(** [double] is IEEE 754 binary64, round to nearest, ties to even. *)
Definition prec : Z := 53.
Definition emax : Z := 1024.

Definition double : Type := spec_float.

Definition fadd : double -> double -> double := SFadd prec emax.
Definition fsub : double -> double -> double := SFsub prec emax.
Definition fmul : double -> double -> double := SFmul prec emax.
Definition fdiv : double -> double -> double := SFdiv prec emax.

(** Conversion [int -> double] (exact: every [int] has 32 bits). *)
Definition of_int (z : Z) : double := binary_normalize prec emax z 0 false.

(** The literal [2.0]. *)
Definition two : double := S754_finite false 4503599627370496 (-51).

(** Truncation toward zero of a finite double, as an integer. *)
Definition trunc (d : double) : option Z :=
  match d with
  | S754_zero _ => Some 0
  | S754_finite s m e => Some (cond_Zopp s (Z.shiftl (Zpos m) e))
  | S754_infinity _ | S754_nan => None
  end.

(** The cast [(int)d]: the fractional part is discarded; when the
    integral part does not fit [int] (or [d] is infinite or a NaN) the
    behaviour is undefined: [None]. *)
Definition to_int (d : double) : option Z :=
  match trunc d with
  | Some t => if CInt.in_int t then Some t else None
  | None => None
  end.

End CDouble.

Import CInt CDouble.

(** ** Data of the input subsystem *)

(** Modelled from the spec: the event type "absolute-axis" and the four
    positional axis codes are the constants [EV_ABS], [ABS_X], [ABS_Y],
    [ABS_MT_POSITION_X] and [ABS_MT_POSITION_Y] of
    [linux/input-event-codes.h], which is not part of the repository;
    they carry the values of that header. *)
Definition EV_ABS : Z := 3.
Definition ABS_X : Z := 0.
Definition ABS_Y : Z := 1.
Definition ABS_MT_POSITION_X : Z := 53.
Definition ABS_MT_POSITION_Y : Z := 54.

(** [struct input_event]: a timestamp, a 16-bit type, a 16-bit code and
    a 32-bit signed value. *)
Record input_event : Type := mk_event {
  time_sec : Z;
  time_usec : Z;
  type : Z;
  code : Z;
  value : Z
}.

Definition set_value (ev : input_event) (v : Z) : input_event :=
  mk_event (time_sec ev) (time_usec ev) (type ev) (code ev) v.

(** [struct input_absinfo], restricted to the fields the program reads. *)
Record input_absinfo : Type := mk_absinfo {
  minimum : Z;
  maximum : Z;
  resolution : Z
}.

(** The source device as [libevdev] exposes it: [libevdev_get_abs_info]
    returns [NULL] for an axis the device does not have. *)
Definition libevdev : Type := Z -> option input_absinfo.

(** The destination device as [evemu] exposes it:
    [evemu_get_abs_minimum], [_maximum] and [_resolution]. *)
Definition evemu_device : Type := Z -> input_absinfo.

(** ** The arithmetic of [map_event] *)

(** The arithmetic of [map_event] (lines 110-117 of the source), on the
    source range [src], the destination range [dst] and the event's
    value. [None] stands for undefined behaviour: a signed overflow in
    one of the [int] subtractions, or a cast of a [double] that does not
    fit [int]. *)
Definition map_value (src dst : input_absinfo) (v : Z) : option Z :=
  match int_sub v (minimum src), int_sub (maximum src) (minimum src),
        int_sub (maximum dst) (minimum dst) with
  | Some off, Some swidth, Some dwidth =>
      (* convert to mm off the center of the touchpad *)
      let val := fdiv (fsub (of_int off) (fdiv (of_int swidth) two))
                      (of_int (resolution src)) in
      (* calculate back into target coordinates *)
      let val := fadd (fadd (fmul val (of_int (resolution dst)))
                            (fdiv (of_int dwidth) two))
                      (of_int (minimum dst)) in
      match to_int val with
      | Some i => Some (max (minimum dst) (min (maximum dst) i))
      | None => None
      end
  | _, _, _ => None
  end.

(** The [(int)val] that [map_event] hands to [printf]: the same [val],
    cast before it is clamped. *)
Definition cast_value (src dst : input_absinfo) (v : Z) : option Z :=
  match int_sub v (minimum src), int_sub (maximum src) (minimum src),
        int_sub (maximum dst) (minimum dst) with
  | Some off, Some swidth, Some dwidth =>
      let val := fdiv (fsub (of_int off) (fdiv (of_int swidth) two))
                      (of_int (resolution src)) in
      let val := fadd (fadd (fmul val (of_int (resolution dst)))
                            (fdiv (of_int dwidth) two))
                      (of_int (minimum dst)) in
      to_int val
  | _, _, _ => None
  end.

(** The conversions [%d] and [%x] of [printf]; [%x] is only applied to
    the event's code, an unsigned 16-bit field. *)
Definition fmt_d (z : Z) : string :=
  DecimalString.NilZero.string_of_int (Z.to_int z).
Definition fmt_x (z : Z) : string :=
  HexadecimalString.NilZero.string_of_uint (N.to_hex_uint (Z.to_N z)).

(** The line of [printf("%x: mapping %d to %d\n", ...)], without its
    newline. *)
Definition mapping_line (c v i : Z) : string :=
  (fmt_x c ++ ": mapping " ++ fmt_d v ++ " to " ++ fmt_d i)%string.

(** ** Outcomes and the outside world *)

(** What a run of a function amounts to: it returns, it blocks forever
    in [poll], or its behaviour is undefined. *)
Inductive outcome (A : Type) : Type :=
| Returns (a : A)
| Blocks
| Undefined.

Arguments Returns {A} a.
Arguments Blocks {A}.
Arguments Undefined {A}.

Definition bind {A B : Type} (m : outcome A) (k : A -> outcome B) : outcome B :=
  match m with
  | Returns a => k a
  | Blocks => Blocks
  | Undefined => Undefined
  end.

Notation "x <- m ;; k" := (bind m (fun x => k))
  (at level 61, m at next level, right associativity).

Definition of_option {A : Type} (o : option A) : outcome A :=
  match o with
  | Some a => Returns a
  | None => Undefined
  end.

(** Modelled from the spec: the read statuses of [libevdev] and the
    error number [EAGAIN] ("would block") come from [libevdev.h] and
    [errno.h], which are not part of the repository. *)
Definition LIBEVDEV_READ_STATUS_SUCCESS : Z := 0.
Definition LIBEVDEV_READ_STATUS_SYNC : Z := 1.
Definition EAGAIN : Z := 11.

(** What the program does to the outside, in order. *)
Inductive action : Type :=
| Play (ev : input_event)   (* evemu_play_one(destfd, ev) *)
| Grab (rc : Z)             (* libevdev_grab(source, LIBEVDEV_GRAB), its status *)
| Ungrab                    (* libevdev_grab(source, LIBEVDEV_UNGRAB) *)
| Stdout (line : string)
| Stderr (line : string).

(** One return of [poll(pollfd, 2, -1)]: its value and the [revents] it
    stored for the source device (slot 0) and for the signalfd (slot 1). *)
Record poll_result : Type := mk_poll {
  poll_ret : Z;
  revents_src : Z;
  revents_sig : Z
}.

(** One return of [libevdev_next_event]: its status and the event it
    stored. *)
Record read_result : Type := mk_read {
  rc : Z;
  ev : input_event
}.

(** The world as the event loop sees it: the script of what the next
    calls of [poll] and of [libevdev_next_event] will report, and the
    trace of actions so far (oldest first). When the poll script is
    exhausted nothing ever becomes ready again and [poll] blocks for
    ever; when the read script is exhausted the non-blocking device
    has no more data: [-EAGAIN]. *)
Record world : Type := mk_world {
  polls : list poll_result;
  reads : list read_result;
  out : list action
}.

Definition emit (a : action) (w : world) : world :=
  mk_world (polls w) (reads w) (out w ++ [a]).

(** The exclusive-grab state of the source device after a trace. *)
Fixpoint grabbed_after (held : bool) (l : list action) : bool :=
  match l with
  | [] => held
  | Grab r :: l' => grabbed_after (if r =? 0 then true else held) l'
  | Ungrab :: l' => grabbed_after false l'
  | _ :: l' => grabbed_after held l'
  end.

(** ** [map_event], [pass_event] and [handle_event] *)

(** [map_event]: fetch both ranges for the event's code, print the
    value before and after the scaling, and overwrite the value in
    place with the clamped result. Dereferencing the [NULL] that
    [libevdev_get_abs_info] returns for a missing axis is undefined. *)
Definition map_event (source : libevdev) (dest : evemu_device)
    (event : input_event) (w : world) : option (input_event * world) :=
  match source (code event) with
  | Some src =>
      let dst := dest (code event) in
      match cast_value src dst (value event) with
      | Some i =>
          let w := emit (Stdout (mapping_line (code event) (value event) i)) w in
          match map_value src dst (value event) with
          | Some v => Some (set_value event v, w)
          | None => None
          end
      | None => None
      end
  | None => None
  end.

Definition pass_event (event : input_event) (w : world) : world :=
  emit (Play event) w.

Definition positional (c : Z) : bool :=
  (c =? ABS_X) || (c =? ABS_Y) ||
  (c =? ABS_MT_POSITION_X) || (c =? ABS_MT_POSITION_Y).

Definition handle_event (source : libevdev) (dest : evemu_device)
    (event : input_event) (w : world) : outcome world :=
  if negb (type event =? EV_ABS) then
    Returns (pass_event event w)
  else
    r <- (if positional (code event)
          then of_option (map_event source dest event w)
          else Returns (event, w)) ;;
    Returns (pass_event (fst r) (snd r)).

(** ** [mainloop] *)

(** The [do ... while (rc != -EAGAIN)] loop, on the read script [rs] and
    the trace [log]. It yields [Some 1] when [mainloop] returns 1 from
    inside it and [None] when the device is drained. *)
Fixpoint drain (source : libevdev) (dest : evemu_device)
    (rs : list read_result) (ps : list poll_result) (log : list action)
    : outcome (option Z * world) :=
  match rs with
  | [] => Returns (None, mk_world ps [] log)
  | r :: rs' =>
      if rc r =? LIBEVDEV_READ_STATUS_SYNC then
        Returns (Some 1, mk_world ps rs' (log ++ [Stderr "error: cannot keep up"]))
      else if negb (rc r =? - EAGAIN) && (rc r <? 0) then
        Returns (Some 1, mk_world ps rs' (log ++ [Stderr "error: strerror"]))
      else
        w <- (if rc r =? LIBEVDEV_READ_STATUS_SUCCESS
              then handle_event source dest (ev r) (mk_world ps rs' log)
              else Returns (mk_world ps rs' log)) ;;
        if negb (rc r =? - EAGAIN)
        then drain source dest rs' ps (out w)
        else Returns (None, w)
  end.

Fixpoint mainloop_from (source : libevdev) (dest : evemu_device)
    (ps : list poll_result) (rs : list read_result) (log : list action)
    : outcome (Z * world) :=
  match ps with
  | [] => Blocks
  | p :: ps' =>
      if poll_ret p =? 0 then Returns (0, mk_world ps' rs log)
      else if negb (revents_sig p =? 0) then Returns (0, mk_world ps' rs log)
      else
        d <- drain source dest rs ps' log ;;
        match fst d with
        | Some status => Returns (status, snd d)
        | None => mainloop_from source dest ps' (reads (snd d)) (out (snd d))
        end
  end.

Definition mainloop (source : libevdev) (dest : evemu_device) (w : world)
    : outcome (Z * world) :=
  mainloop_from source dest (polls w) (reads w) (out w).

(** ** [main] *)

(** What the calls of [main] into the C library, libevdev and evemu
    report in one run. *)
Record env : Type := mk_env {
  argv : list string;
  fopen_dest : bool;            (* fopen(argv[2], "r") is not NULL *)
  open_source : Z;              (* open(argv[4], O_RDONLY|O_NONBLOCK) *)
  libevdev_new_from_fd : Z;
  source : libevdev;
  evemu_read : Z;
  evemu_create_managed : Z;
  dev : evemu_device;
  open_destfd : Z;              (* open(new_devnode, O_RDWR|O_NONBLOCK) *)
  libevdev_grab : Z;            (* status of the LIBEVDEV_GRAB call *)
  events : world                (* scripts of the loop, and an empty trace *)
}.

Definition streq (a b : string) : bool := String.eqb a b.

Definition arg (e : env) (n : nat) : string := nth n (argv e) EmptyString.

Definition libevdev_get_abs_resolution (s : libevdev) (c : Z) : Z :=
  match s c with
  | Some a => resolution a
  | None => 0
  end.

Definition evemu_get_abs_resolution (d : evemu_device) (c : Z) : Z :=
  resolution (d c).

(** The Nyquist check of one axis: [srcres < dstres * 2]. *)
Definition nyquist (e : env) (axis : Z) (line : string) (w : world)
    : outcome world :=
  let srcres := libevdev_get_abs_resolution (source e) axis in
  let dstres := evemu_get_abs_resolution (dev e) axis in
  twice <- of_option (int_mul dstres 2) ;;
  Returns (if srcres <? twice then emit (Stdout line) w else w).

Definition exit_with (status : Z) (a : action) (w : world) : outcome (Z * world) :=
  Returns (status, emit a w).

(** [main]. The [_cleanup_] handlers (closing the files and freeing the
    devices when the function is left) are modelled apart, below. *)
Definition main (e : env) : outcome (Z * world) :=
  let w := events e in
  if negb (Z.of_nat (List.length (argv e)) =? 5)
     || negb (streq (arg e 1) "dest")
     || negb (streq (arg e 3) "source")
  then exit_with 1 (Stdout "usage") w
  else if negb (fopen_dest e)
  then exit_with 1 (Stderr "Failed to open source file") w
  else if open_source e <? 0
  then exit_with 1 (Stderr "Failed to open dest device") w
  else if libevdev_new_from_fd e <? 0
  then exit_with 1 (Stderr "Failed to init libevdev") w
  else if evemu_read e <? 0
  then exit_with 1 (Stderr "Failed to read evemu file") w
  else if evemu_create_managed e <? 0
  then exit_with 1 (Stderr "Failed to create evemu device") w
  else if open_destfd e <? 0
  then exit_with 1 (Stderr "Failed to create target fd") w
  else
    let w := emit (Stdout "Mapping") w in
    w <- nyquist e ABS_X "Warning: Nyquist not met on X" w ;;
    w <- nyquist e ABS_Y "Warning: Nyquist not met on Y" w ;;
    (* disable the real touchpad, it now pipes through our virtual device *)
    let w := emit (Grab (libevdev_grab e)) w in
    r <- mainloop (source e) (dev e) w ;;
    let w := emit Ungrab (snd r) in
    Returns (0, w).

(** The startup steps of [main] all succeeded: the argument shape, the
    recording, the source device, the virtual device and its node. *)
Definition startup_ok (e : env) : bool :=
  (Z.of_nat (List.length (argv e)) =? 5)
  && streq (arg e 1) "dest" && streq (arg e 3) "source"
  && fopen_dest e
  && negb (open_source e <? 0)
  && negb (libevdev_new_from_fd e <? 0)
  && negb (evemu_read e <? 0)
  && negb (evemu_create_managed e <? 0)
  && negb (open_destfd e <? 0).

(** The world in which [mainloop] starts: after the banner, the two
    Nyquist checks and the grab. *)
Definition at_loop (e : env) : outcome world :=
  w <- nyquist e ABS_X "Warning: Nyquist not met on X"
         (emit (Stdout "Mapping") (events e)) ;;
  w <- nyquist e ABS_Y "Warning: Nyquist not met on Y" w ;;
  Returns (emit (Grab (libevdev_grab e)) w).

(** ** The scoped cleanups of [main] *)

(** What a cleanup handler does to the outside. *)
Inductive release : Type :=
| Close (fd : Z)      (* close(fd) *)
| Fclose              (* fclose(dest) *)
| EvemuDestroy        (* evemu_destroy(dev) *)
| LibevdevFree.       (* libevdev_free(source) *)

(** The five variables of [main] declared with [_cleanup_]: the two
    descriptors, and whether each of the three pointers is not [NULL]. *)
Record locals : Type := mk_locals {
  l_dest : bool;
  l_sourcefd : Z;
  l_dev : bool;
  l_source : bool;
  l_destfd : Z
}.

(** The handlers: [fclosep], [evemu_free] and [evdev_free] test their
    pointer, [closep] closes whatever it is given. *)
Definition fclosep (p : bool) : list release := if p then [Fclose] else [].
Definition closep (p : Z) : list release := [Close p].
Definition evemu_free (dev : bool) : list release :=
  if dev then [EvemuDestroy] else [].
Definition evdev_free (dev : bool) : list release :=
  if dev then [LibevdevFree] else [].

(** The argument test of [main]. *)
Definition args_ok (e : env) : bool :=
  (Z.of_nat (List.length (argv e)) =? 5)
  && streq (arg e 1) "dest" && streq (arg e 3) "source".

(** The variables when [main] returns: initialised to [NULL] and -1, each
    is assigned when [main] gets to its step. [libevdev_new_from_fd]
    stores the device only when it succeeds; [evemu_new] is taken to
    return a device. *)
Definition main_locals (e : env) : locals :=
  if negb (args_ok e) then mk_locals false (-1) false false (-1)
  else if negb (fopen_dest e) then mk_locals false (-1) false false (-1)
  else if open_source e <? 0
  then mk_locals true (open_source e) false false (-1)
  else if libevdev_new_from_fd e <? 0
  then mk_locals true (open_source e) false false (-1)
  else if evemu_read e <? 0
  then mk_locals true (open_source e) true true (-1)
  else if evemu_create_managed e <? 0
  then mk_locals true (open_source e) true true (-1)
  else mk_locals true (open_source e) true true (open_destfd e).

(** The handlers run when [main] is left, in the reverse order of the
    declarations: [destfd], [source], [dev], [sourcefd], [dest]. *)
Definition cleanup (l : locals) : list release :=
  closep (l_destfd l) ++ evdev_free (l_source l) ++ evemu_free (l_dev l)
  ++ closep (l_sourcefd l) ++ fclosep (l_dest l).

Definition main_releases (e : env) : list release := cleanup (main_locals e).

(** ** A sample session *)

Module Sample.

Definition pad : input_absinfo := mk_absinfo 0 100 10.
Definition target : input_absinfo := mk_absinfo 0 50 5.

Definition touch : input_event := mk_event 7 250 EV_ABS ABS_X 50.

Definition session (grab_status : Z) (w : world) : env :=
  mk_env ["touchpad-emulator"; "dest"; "pad.evemu"; "source"; "/dev/input/event4"]%string
         true 3 0 (fun _ => Some pad) 0 0 (fun _ => target) 4 grab_status w.

(** The device becomes ready and the first read reports a lost sync. *)
Definition sync_lost : world :=
  mk_world [mk_poll 1 1 0] [mk_read LIBEVDEV_READ_STATUS_SYNC touch] [].

(** The interrupt signal arrives at the first wake. *)
Definition interrupted : world :=
  mk_world [mk_poll 1 0 1] [mk_read LIBEVDEV_READ_STATUS_SUCCESS touch] [].

(** Both the device and the signalfd are ready at the first wake. *)
Definition both_ready : world :=
  mk_world [mk_poll 2 1 1] [mk_read LIBEVDEV_READ_STATUS_SUCCESS touch] [].

(** A pad of odd width whose target has ten times its resolution. *)
Definition coarse_pad : input_absinfo := mk_absinfo 0 1023 4.
Definition fine_target : input_absinfo := mk_absinfo 0 4095 40.

(** [poll] returns zero at once. *)
Definition idle : world :=
  mk_world [mk_poll 0 0 0] [mk_read LIBEVDEV_READ_STATUS_SUCCESS touch] [].

End Sample.

(** ** A longer session *)

Module Scenario.

Definition source : libevdev := fun _ => Some Sample.pad.
Definition dest : evemu_device := fun _ => Sample.target.

(** A key event, a touch at 50 and a touch at 200. *)
Definition key : input_event := mk_event 7 100 1 330 1.
Definition far_touch : input_event := mk_event 7 900 EV_ABS ABS_X 200.

Definition ok (e : input_event) : read_result :=
  mk_read LIBEVDEV_READ_STATUS_SUCCESS e.
Definition would_block : read_result := mk_read (- EAGAIN) key.
Definition sync : read_result := mk_read LIBEVDEV_READ_STATUS_SYNC key.

Definition wake : poll_result := mk_poll 1 1 0.
Definition interrupt : poll_result := mk_poll 1 0 1.

(** Two events, a pause, a third event, then the interrupt. *)
Definition bursts : world :=
  mk_world [wake; wake; interrupt]
           [ok key; ok Sample.touch; would_block; ok far_touch] [].

(** Two events, then a lost sync with an event still queued. *)
Definition overrun : world :=
  mk_world [wake; interrupt] [ok key; ok Sample.touch; sync; ok far_touch] [].

(** A session that gets to the loop, and one whose recording is missing. *)
Definition started : env := Sample.session 0 bursts.
Definition busy : env := Sample.session (-16) bursts.
Definition no_recording : env :=
  mk_env ["touchpad-emulator"; "dest"; "pad.evemu"; "source"; "/dev/input/event4"]%string
         false 3 0 source 0 0 dest 4 0 bursts.
(** A session whose source has a tenth of the destination's resolution. *)
Definition undersampled : env :=
  mk_env ["touchpad-emulator"; "dest"; "pad.evemu"; "source"; "/dev/input/event4"]%string
         true 3 0 (fun _ => Some Sample.coarse_pad) 0 0
         (fun _ => Sample.fine_target) 4 0 bursts.
Definition no_arguments : env :=
  mk_env ["touchpad-emulator"]%string true 3 0 source 0 0 dest 4 0 bursts.

End Scenario.

(** * Vocabulary of the properties *)

(** ** Traces *)

Definition is_message (a : action) : Prop :=
  match a with
  | Stdout _ | Stderr _ => True
  | _ => False
  end.

(** No prefix of the trace [l], run on a free device, leaves it grabbed. *)
Definition never_grabbed (l : list action) : Prop :=
  forall l1 l2, l = l1 ++ l2 -> grabbed_after false l1 = false.

(** The events played in a trace, in order. *)
Definition plays (l : list action) : list input_event :=
  flat_map (fun a => match a with Play e => [e] | _ => [] end) l.

(** An action that leaves the grab state of the device as it is. *)
Definition quiet (a : action) : Prop :=
  match a with
  | Grab _ | Ungrab => False
  | _ => True
  end.

(** ** The event loop *)

(** The event that [handle_event] plays for [event], when it plays one. *)
Definition forwarded (source : libevdev) (dest : evemu_device)
    (event : input_event) : option input_event :=
  if negb (type event =? EV_ABS) then Some event
  else if positional (code event) then
    match source (code event) with
    | Some src =>
        option_map (set_value event)
                   (map_value src (dest (code event)) (value event))
    | None => None
    end
  else Some event.

(** The line that [map_event] prints when [handle_event] is given
    [event]: none unless it is an [EV_ABS] event with a positional
    code. *)
Definition narrated (source : libevdev) (dest : evemu_device)
    (event : input_event) : list action :=
  if (type event =? EV_ABS) && positional (code event) then
    match source (code event) with
    | Some src =>
        match cast_value src (dest (code event)) (value event) with
        | Some i => [Stdout (mapping_line (code event) (value event) i)]
        | None => []
        end
    | None => []
    end
  else [].

(** The events played for a run of reads: one per successful read. *)
Definition replay (source : libevdev) (dest : evemu_device)
    (rs : list read_result) : list input_event :=
  flat_map (fun r =>
              if rc r =? LIBEVDEV_READ_STATUS_SUCCESS
              then match forwarded source dest (ev r) with
                   | Some e => [e]
                   | None => []
                   end
              else []) rs.

(** The trace of a run of reads: for each successful read the line of
    [map_event], if there is one, and then the event played. *)
Definition relay (source : libevdev) (dest : evemu_device)
    (rs : list read_result) : list action :=
  flat_map (fun r =>
              if rc r =? LIBEVDEV_READ_STATUS_SUCCESS
              then match forwarded source dest (ev r) with
                   | Some e => narrated source dest (ev r) ++ [Play e]
                   | None => []
                   end
              else []) rs.

(** An action of relaying: an event played or a line on stdout. *)
Definition relaying (a : action) : Prop :=
  match a with
  | Play _ | Stdout _ => True
  | _ => False
  end.

(** A wake of [poll] at which the loop stops. *)
Definition stops (p : poll_result) : bool :=
  (poll_ret p =? 0) || negb (revents_sig p =? 0).

(** A read that [handle_event] dispatches within defined behaviour. *)
Definition dispatchable (source : libevdev) (dest : evemu_device)
    (r : read_result) : Prop :=
  rc r = LIBEVDEV_READ_STATUS_SUCCESS -> forwarded source dest (ev r) <> None.

(** A successful read whose event is dispatched within defined behaviour. *)
Definition delivered (source : libevdev) (dest : evemu_device)
    (r : read_result) : Prop :=
  rc r = LIBEVDEV_READ_STATUS_SUCCESS /\ forwarded source dest (ev r) <> None.

(** A read that stops [mainloop] with status 1. *)
Definition fatal (r : read_result) : Prop :=
  rc r = LIBEVDEV_READ_STATUS_SYNC \/ (rc r < 0 /\ rc r <> - EAGAIN).

(** ** Axis ranges *)

(** The three fields of the range are C [int]s. *)
Definition int_typed (a : input_absinfo) : Prop :=
  in_int (minimum a) = true /\ in_int (maximum a) = true /\
  in_int (resolution a) = true.

(** [r] differs from the midpoint [(minimum + maximum) / 2] of [dst] by
    at most one unit; stated on the doubled quantities, in integers. *)
Definition near_midpoint (dst : input_absinfo) (r : Z) : Prop :=
  Z.abs (2 * r - (minimum dst + maximum dst)) <= 2.

(** The [double] that [map_event] casts to [int], as a function of the
    six integers it is computed from. *)
Definition scaled (off sw dw sres dres dmin : Z) : double :=
  fadd (fadd (fmul (fdiv (fsub (of_int off) (fdiv (of_int sw) two))
                         (of_int sres))
                   (of_int dres))
             (fdiv (of_int dw) two))
       (of_int dmin).

(** A double that is an infinity or a NaN. *)
Definition nonfinite (d : double) : Prop :=
  match d with
  | S754_infinity _ | S754_nan => True
  | _ => False
  end.

(** ** Binary64 read as real numbers *)

Local Open Scope R_scope.

Definition bpow (e : Z) : R := powerRZ 2 e.

(** Rounding of a real to the nearest integer, ties to even. *)
Definition rne (x : R) : Z :=
  let f := Zfloor x in
  match Rcompare (x - IZR f) (1 / 2) with
  | Lt => f
  | Eq => if Z.even f then f else (f + 1)%Z
  | Gt => (f + 1)%Z
  end.

(** Truncation of a real toward zero. *)
Definition Rtrunc (x : R) : Z :=
  match Rcompare x 0 with
  | Lt => (- Zfloor (- x))%Z
  | _ => Zfloor x
  end.

(** What a [location] of [SpecFloat] says of a real [x] with respect to
    the integer [m]: [x] is [m], or lies below, at or above [m + 1/2]. *)
Definition located (m : Z) (l : location) (x : R) : Prop :=
  match l with
  | loc_Exact => x = IZR m
  | loc_Inexact Lt => IZR m < x < IZR m + 1 / 2
  | loc_Inexact Eq => x = IZR m + 1 / 2
  | loc_Inexact Gt => IZR m + 1 / 2 < x < IZR m + 1
  end.

Definition rec_located (mrs : shr_record) (x : R) : Prop :=
  (0 <= shr_m mrs)%Z /\ located (shr_m mrs) (loc_of_shr_record mrs) x.

Definition sgn (s : bool) : R := if s then -1 else 1.

(** The real value of a finite double (and 0 for the others). *)
Definition B2R (f : spec_float) : R :=
  match f with
  | S754_finite s m e => sgn s * (IZR (Zpos m) * bpow e)
  | _ => 0
  end.

(** A zero, or a normal number (53 significant bits) whose exponent is
    within [W] of 0: far from the subnormal and the overflow ranges. *)
Definition nice (W : Z) (f : spec_float) : Prop :=
  match f with
  | S754_zero _ => True
  | S754_finite _ m e => (2 ^ 52 <= Zpos m < 2 ^ 53)%Z /\ (- W <= e <= W)%Z
  | _ => False
  end.

(** [r] is the positive real [x] rounded to 53 bits, to nearest, ties to
    even: [e] is the exponent of the last bit kept. *)
Definition rnd_pos (x r : R) : Prop :=
  exists e, bpow (e + 52) <= x < bpow (e + 53) /\
            r = IZR (rne (x / bpow e)) * bpow e.

Definition rounds (x r : R) : Prop :=
  (x = 0 /\ r = 0) \/ (0 < x /\ rnd_pos x r) \/ (x < 0 /\ rnd_pos (- x) (- r)).

(** The value of [val] in [map_event] as a relation on reals: four
    roundings, starting from the exact offset to the source midpoint. *)
Definition scaled_to (off sw dw sres dres dmin : Z) (x4 : R) : Prop :=
  exists x1 x2 x3,
    rounds ((IZR off - IZR sw / 2) / IZR sres) x1 /\
    rounds (x1 * IZR dres) x2 /\
    rounds (x2 + IZR dw / 2) x3 /\
    rounds (x3 + IZR dmin) x4.

Local Close Scope R_scope.

(** * Properties *)

(** ** The dispatcher *)

Lemma positional_spec (c : Z) :
  positional c = true <->
  c = ABS_X \/ c = ABS_Y \/ c = ABS_MT_POSITION_X \/ c = ABS_MT_POSITION_Y.
Proof.
  unfold positional. rewrite !orb_true_iff, !Z.eqb_eq. tauto.
Qed.

Lemma map_event_frame (source : libevdev) (dest : evemu_device)
    (event event' : input_event) (w w1 : world) :
  map_event source dest event w = Some (event', w1) ->
  (exists v, event' = set_value event v) /\
  (exists line, w1 = emit (Stdout line) w).
Proof.
  unfold map_event. destruct (source (code event)) as [src|]; [|discriminate].
  destruct (cast_value src (dest (code event)) (value event)) as [i|];
    [|discriminate].
  destruct (map_value src (dest (code event)) (value event)) as [v|];
    [|discriminate].
  intros H. injection H as <- <-. split; eauto.
Qed.

(** C9. An event whose code is none of the four positional codes, or
    whose type is not [EV_ABS], is played on the destination exactly as
    it was read: in particular its value is unchanged. *)
Theorem passthrough_identity (source : libevdev) (dest : evemu_device)
    (event : input_event) (w : world) :
  (code event <> ABS_X /\ code event <> ABS_Y /\
   code event <> ABS_MT_POSITION_X /\ code event <> ABS_MT_POSITION_Y)
  \/ type event <> EV_ABS ->
  handle_event source dest event w = Returns (emit (Play event) w).
Proof.
  intros H. unfold handle_event, pass_event.
  destruct (type event =? EV_ABS) eqn:Ht; cbn [negb]; [|reflexivity].
  apply Z.eqb_eq in Ht.
  destruct (positional (code event)) eqn:Hp; [|reflexivity].
  apply positional_spec in Hp. exfalso. tauto.
Qed.

Lemma passthrough_identity_witness :
  handle_event (fun _ => None) (fun _ => Sample.target)
               (mk_event 1 2 EV_ABS 24 130) Sample.idle
  = Returns (emit (Play (mk_event 1 2 EV_ABS 24 130)) Sample.idle).
Proof.
  apply passthrough_identity. left. cbn.
  unfold ABS_X, ABS_Y, ABS_MT_POSITION_X, ABS_MT_POSITION_Y. lia.
Defined.

(** C10. Whatever event the dispatcher forwards, it is the event it was
    given with at most the value replaced: type, code and timestamp are
    those of the input, and the value differs only for an [EV_ABS] event
    with a positional code. Besides playing that event the dispatcher
    does at most one thing, the line that [map_event] prints before. *)
Theorem dispatch_frame (source : libevdev) (dest : evemu_device)
    (event : input_event) (w w' : world) :
  handle_event source dest event w = Returns w' ->
  exists event' w1,
    w' = emit (Play event') w1 /\
    (w1 = w \/ exists line, w1 = emit (Stdout line) w) /\
    type event' = type event /\ code event' = code event /\
    time_sec event' = time_sec event /\ time_usec event' = time_usec event /\
    (value event' <> value event ->
     type event = EV_ABS /\ positional (code event) = true).
Proof.
  unfold handle_event, pass_event.
  destruct (type event =? EV_ABS) eqn:Ht; cbn [negb].
  - apply Z.eqb_eq in Ht.
    destruct (positional (code event)) eqn:Hp.
    + destruct (map_event source dest event w) as [[event' w1]|] eqn:Hm;
        cbn [of_option bind fst snd]; [|discriminate].
      intros H. injection H as <-. exists event', w1.
      apply map_event_frame in Hm. destruct Hm as [[v ->] Hl]. cbn.
      repeat split; auto.
    + cbn [bind fst snd]. intros H. injection H as <-. exists event, w.
      repeat split; auto; congruence.
  - intros H. injection H as <-. exists event, w.
    repeat split; auto; congruence.
Qed.

Lemma dispatch_frame_witness :
  exists event' w1,
    emit (Play (mk_event 7 250 EV_ABS ABS_X 25))
         (emit (Stdout "0: mapping 50 to 25") Sample.idle)
      = emit (Play event') w1 /\
    (w1 = Sample.idle \/ exists line, w1 = emit (Stdout line) Sample.idle) /\
    type event' = type Sample.touch /\ code event' = code Sample.touch /\
    time_sec event' = time_sec Sample.touch /\
    time_usec event' = time_usec Sample.touch /\
    (value event' <> value Sample.touch ->
     type Sample.touch = EV_ABS /\ positional (code Sample.touch) = true).
Proof.
  apply (dispatch_frame (fun _ => Some Sample.pad) (fun _ => Sample.target)).
  vm_compute. reflexivity.
Defined.

(** ** The event loop *)

(** C6. When [poll] wakes the loop and the signalfd is ready, [mainloop]
    returns 0 at once: whatever the source device has ready, nothing is
    read from it and nothing is played. *)
Theorem shutdown_stops_loop (source : libevdev) (dest : evemu_device)
    (w : world) (p : poll_result) (ps : list poll_result) :
  polls w = p :: ps ->
  poll_ret p <> 0 ->
  revents_sig p <> 0 ->
  mainloop source dest w = Returns (0, mk_world ps (reads w) (out w)).
Proof.
  intros Hp Hret Hsig. unfold mainloop. rewrite Hp. cbn [mainloop_from].
  apply Z.eqb_neq in Hret, Hsig. rewrite Hret, Hsig. reflexivity.
Qed.

Lemma shutdown_stops_loop_witness :
  mainloop (fun _ => Some Sample.pad) (fun _ => Sample.target)
           Sample.both_ready
  = Returns (0, mk_world [] (reads Sample.both_ready) (out Sample.both_ready)).
Proof.
  apply (shutdown_stops_loop _ _ Sample.both_ready (mk_poll 2 1 1) []);
    [reflexivity | cbn; lia | cbn; lia].
Defined.

(** C3, as the code has it. When [poll] returns zero the [while]
    condition fails: [mainloop] falls through to [return 0], success,
    without a read and without a diagnostic. *)
Theorem poll_zero_returns_success (source : libevdev) (dest : evemu_device)
    (w : world) (p : poll_result) (ps : list poll_result) :
  polls w = p :: ps ->
  poll_ret p = 0 ->
  mainloop source dest w = Returns (0, mk_world ps (reads w) (out w)).
Proof.
  intros Hp Hret. unfold mainloop. rewrite Hp. cbn [mainloop_from].
  rewrite Hret. reflexivity.
Qed.

Lemma poll_zero_returns_success_witness :
  mainloop (fun _ => Some Sample.pad) (fun _ => Sample.target) Sample.idle
  = Returns (0, mk_world [] (reads Sample.idle) (out Sample.idle)).
Proof.
  apply (poll_zero_returns_success _ _ Sample.idle (mk_poll 0 0 0) []);
    reflexivity.
Defined.

(** C3, as the specification states it (a [poll] that returns zero makes
    the loop report failure), fails: the status is 0, not 1. *)
Lemma poll_zero_is_not_failure :
  exists p ps, polls Sample.idle = p :: ps /\ poll_ret p = 0 /\
  forall w', mainloop (fun _ => Some Sample.pad) (fun _ => Sample.target)
                      Sample.idle <> Returns (1, w').
Proof.
  exists (mk_poll 0 0 0), []. repeat split. intros w'. discriminate.
Qed.

(** ** The session controller *)

Lemma main_startup_failed (e : env) :
  startup_ok e = false ->
  exists a, is_message a /\ main e = Returns (1, emit a (events e)).
Proof.
  unfold startup_ok, main, exit_with.
  destruct (Z.of_nat (List.length (argv e)) =? 5); cbn [negb orb andb];
    [|intros _; eexists; split; [|reflexivity]; exact I].
  destruct (streq (arg e 1) "dest"); cbn [negb orb andb];
    [|intros _; eexists; split; [|reflexivity]; exact I].
  destruct (streq (arg e 3) "source"); cbn [negb orb andb];
    [|intros _; eexists; split; [|reflexivity]; exact I].
  destruct (fopen_dest e); cbn [negb orb andb];
    [|intros _; eexists; split; [|reflexivity]; exact I].
  destruct (open_source e <? 0); cbn [negb orb andb];
    [intros _; eexists; split; [|reflexivity]; exact I|].
  destruct (libevdev_new_from_fd e <? 0); cbn [negb orb andb];
    [intros _; eexists; split; [|reflexivity]; exact I|].
  destruct (evemu_read e <? 0); cbn [negb orb andb];
    [intros _; eexists; split; [|reflexivity]; exact I|].
  destruct (evemu_create_managed e <? 0); cbn [negb orb andb];
    [intros _; eexists; split; [|reflexivity]; exact I|].
  destruct (open_destfd e <? 0); cbn [negb orb andb];
    [intros _; eexists; split; [|reflexivity]; exact I|].
  discriminate.
Qed.

Lemma main_startup_ok (e : env) :
  startup_ok e = true ->
  main e = (w0 <- at_loop e ;;
            r <- mainloop (source e) (dev e) w0 ;;
            Returns (0, emit Ungrab (snd r))).
Proof.
  unfold startup_ok. rewrite !andb_true_iff, !negb_true_iff.
  intros [[[[[[[[H1 H2] H3] H4] H5] H6] H7] H8] H9].
  unfold main, at_loop. rewrite H1, H2, H3, H4, H5, H6, H7, H8, H9.
  cbn [negb orb].
  destruct (nyquist e ABS_X _ _) as [w1| |]; cbn [bind]; try reflexivity.
  destruct (nyquist e ABS_Y _ _) as [w2| |]; cbn [bind]; reflexivity.
Qed.

(** X11. The exit status of [main] tells how the startup went and
    nothing else: 1 when a startup step failed, 0 otherwise, whatever
    [mainloop] returns. *)
Lemma main_exit_status (e : env) (status : Z) (w : world) :
  main e = Returns (status, w) ->
  status = if startup_ok e then 0 else 1.
Proof.
  destruct (startup_ok e) eqn:Hs.
  - rewrite (main_startup_ok e Hs).
    destruct (at_loop e) as [w0| |]; cbn [bind]; try discriminate.
    destruct (mainloop (source e) (dev e) w0) as [r| |]; cbn [bind];
      try discriminate.
    intros H. now injection H as <- _.
  - destruct (main_startup_failed e Hs) as [a [_ Hm]]. rewrite Hm.
    intros H. now injection H as <- _.
Qed.

Lemma grabbed_after_ungrab (held : bool) (l : list action) :
  grabbed_after held (l ++ [Ungrab]) = false.
Proof.
  revert held. induction l as [|a l IH]; intros held; [reflexivity|].
  destruct a; cbn [app grabbed_after]; apply IH.
Qed.

Lemma message_never_grabs (a : action) :
  is_message a -> never_grabbed [a].
Proof.
  intros Ha l1 l2 H. destruct l1 as [|b l1]; [reflexivity|].
  injection H as <- H. destruct l1; [|discriminate].
  destruct a; cbn in Ha |- *; auto; contradiction.
Qed.

(** C5. A run of [main] that returns went one of two ways. Either a
    startup step failed: then the only action is a message, and the
    device is never grabbed. Or the startup succeeded: then the grab
    call was made, [mainloop] returned some status (0 or 1 alike), the
    trace of the run is the trace of the loop followed by the ungrab
    call, and the device is left free. *)
Theorem grab_always_released (e : env) (status : Z) (w : world) :
  main e = Returns (status, w) ->
  (startup_ok e = false /\
   exists a, out w = out (events e) ++ [a] /\ never_grabbed [a])
  \/
  (startup_ok e = true /\
   exists w0 st w1,
     at_loop e = Returns w0 /\
     (exists l, out w0 = l ++ [Grab (libevdev_grab e)]) /\
     mainloop (source e) (dev e) w0 = Returns (st, w1) /\
     out w = out w1 ++ [Ungrab] /\
     forall held, grabbed_after held (out w) = false).
Proof.
  intros Hmain. destruct (startup_ok e) eqn:Hs.
  - right. split; [reflexivity|].
    rewrite (main_startup_ok e Hs) in Hmain.
    destruct (at_loop e) as [w0| |] eqn:H0; cbn [bind] in Hmain;
      try discriminate.
    destruct (mainloop (source e) (dev e) w0) as [[st w1]| |] eqn:Hl;
      cbn [bind] in Hmain; try discriminate.
    injection Hmain as _ <-. exists w0, st, w1. repeat split; auto.
    + revert H0. unfold at_loop.
      destruct (nyquist e ABS_X _ _) as [wx| |]; cbn [bind]; try discriminate.
      destruct (nyquist e ABS_Y _ _) as [wy| |]; cbn [bind]; try discriminate.
      intros H. injection H as <-. now exists (out wy).
    + intros held. cbn. apply grabbed_after_ungrab.
  - left. split; [reflexivity|].
    destruct (main_startup_failed e Hs) as [a [Ha Hm]].
    rewrite Hm in Hmain. injection Hmain as _ <-.
    exists a. split; [reflexivity|]. now apply message_never_grabs.
Qed.

Lemma grab_always_released_witness :
  (startup_ok (Sample.session 0 Sample.sync_lost) = false /\
   exists a, [Stdout "Mapping"; Grab 0; Stderr "error: cannot keep up"; Ungrab]%string
             = out (events (Sample.session 0 Sample.sync_lost)) ++ [a]
             /\ never_grabbed [a])
  \/
  (startup_ok (Sample.session 0 Sample.sync_lost) = true /\
   exists w0 st w1,
     at_loop (Sample.session 0 Sample.sync_lost) = Returns w0 /\
     (exists l, out w0 = l ++ [Grab 0]) /\
     mainloop (fun _ => Some Sample.pad) (fun _ => Sample.target) w0
       = Returns (st, w1) /\
     [Stdout "Mapping"; Grab 0; Stderr "error: cannot keep up"; Ungrab]%string
       = out w1 ++ [Ungrab] /\
     forall held,
       grabbed_after held
         [Stdout "Mapping"; Grab 0; Stderr "error: cannot keep up"; Ungrab]%string
       = false).
Proof.
  apply (grab_always_released (Sample.session 0 Sample.sync_lost) 0
           (mk_world [] []
              [Stdout "Mapping"; Grab 0; Stderr "error: cannot keep up"; Ungrab]%string)).
  vm_compute. reflexivity.
Defined.

(** C1, on the code. In a session whose startup succeeds and whose
    first read reports a lost sync, [mainloop] returns 1, and [main]
    drops that status: the process exits with 0. *)
Theorem main_drops_loop_status :
  at_loop (Sample.session 0 Sample.sync_lost)
    = Returns (emit (Grab 0) (emit (Stdout "Mapping") Sample.sync_lost)) /\
  mainloop (fun _ => Some Sample.pad) (fun _ => Sample.target)
           (emit (Grab 0) (emit (Stdout "Mapping") Sample.sync_lost))
    = Returns (1, mk_world [] []
                    [Stdout "Mapping"; Grab 0;
                     Stderr "error: cannot keep up"]%string) /\
  main (Sample.session 0 Sample.sync_lost)
    = Returns (0, mk_world [] []
                    [Stdout "Mapping"; Grab 0;
                     Stderr "error: cannot keep up"; Ungrab]%string).
Proof. repeat split; vm_compute; reflexivity. Qed.

(** C4, on the code. When the grab call fails (here with [-EBUSY]),
    [main] does not look at its status: no diagnostic is printed, the
    event loop runs, and the process exits with 0. *)
Theorem main_ignores_grab_failure :
  main (Sample.session (-16) Sample.interrupted)
    = Returns (0, mk_world []
                    [mk_read LIBEVDEV_READ_STATUS_SUCCESS Sample.touch]
                    [Stdout "Mapping"; Grab (-16); Ungrab]%string).
Proof. vm_compute. reflexivity. Qed.

(** ** The coordinate transform on the scenario of the specification *)

(** C2. From the range 0..100 at resolution 10 to the range 0..50 at
    resolution 5, the value 50 maps to 25, the value 0 to 0 and the
    value 200 to 50. *)
Theorem map_value_scenario :
  map_value (mk_absinfo 0 100 10) (mk_absinfo 0 50 5) 50 = Some 25 /\
  map_value (mk_absinfo 0 100 10) (mk_absinfo 0 50 5) 0 = Some 0 /\
  map_value (mk_absinfo 0 100 10) (mk_absinfo 0 50 5) 200 = Some 50.
Proof. repeat split; vm_compute; reflexivity. Qed.

(** * Binary64 arithmetic is correctly rounded

    The operations of [SpecFloat] at precision 53 and [emax] 1024 (the
    [prec] and [emax] of [CDouble]), on normal numbers and read through
    [B2R], return the exact real result rounded by [rounds]. *)

Local Open Scope R_scope.

(** ** Powers of two *)

Lemma bpow_gt_0 e : 0 < bpow e.
Proof. apply powerRZ_lt. lra. Qed.

Lemma bpow_add a b : bpow (a + b) = bpow a * bpow b.
Proof. apply powerRZ_add. lra. Qed.

Lemma bpow_0 : bpow 0 = 1.
Proof. reflexivity. Qed.

Lemma bpow_1 : bpow 1 = 2.
Proof. unfold bpow. simpl. lra. Qed.

Lemma bpow_opp e : bpow (- e) = / bpow e.
Proof. apply powerRZ_neg'. Qed.

Lemma bpow_IZR n : (0 <= n)%Z -> bpow n = IZR (2 ^ n).
Proof.
  intros Hn. unfold bpow. rewrite <- (Z2Nat.id n Hn) at 1.
  rewrite <- pow_powerRZ. rewrite pow_IZR. now rewrite Z2Nat.id.
Qed.

Lemma bpow_ge_1 n : (0 <= n)%Z -> 1 <= bpow n.
Proof.
  intros Hn. rewrite bpow_IZR by assumption. apply IZR_le.
  assert (0 < 2 ^ n)%Z by (apply Z.pow_pos_nonneg; lia). lia.
Qed.

Lemma bpow_le a b : (a <= b)%Z -> bpow a <= bpow b.
Proof.
  intros H. replace b with (a + (b - a))%Z by lia. rewrite bpow_add.
  assert (1 <= bpow (b - a)) by (apply bpow_ge_1; lia).
  pose proof (bpow_gt_0 a). nra.
Qed.

Lemma bpow_lt a b : (a < b)%Z -> bpow a < bpow b.
Proof.
  intros H. apply Rlt_le_trans with (bpow (a + 1)).
  - rewrite bpow_add, bpow_1. pose proof (bpow_gt_0 a). lra.
  - apply bpow_le. lia.
Qed.

Lemma bpow_lt_inv a b : bpow a < bpow b -> (a < b)%Z.
Proof.
  intros H. destruct (Z_lt_le_dec a b) as [|Hle]; [assumption|].
  apply bpow_le in Hle. lra.
Qed.

Lemma bpow_succ e : bpow (e + 1) = 2 * bpow e.
Proof. rewrite bpow_add, bpow_1. lra. Qed.

Lemma div_bpow x a b : x / bpow a / bpow b = x / bpow (a + b).
Proof.
  rewrite bpow_add. field. split; apply Rgt_not_eq; apply bpow_gt_0.
Qed.

(** ** Rounding to the nearest integer *)

Lemma rne_bounds x : IZR (rne x) - 1/2 <= x <= IZR (rne x) + 1/2.
Proof.
  unfold rne. pose proof (Zfloor_bound x) as Hb.
  destruct (Rcompare_spec (x - IZR (Zfloor x)) (1/2)).
  - destruct (Z.even (Zfloor x)); rewrite ?plus_IZR; lra.
  - lra.
  - rewrite plus_IZR. lra.
Qed.

Lemma rne_IZR n : rne (IZR n) = n.
Proof.
  unfold rne. rewrite (Zfloor_eq n) by lra.
  destruct (Rcompare_spec (IZR n - IZR n) (1/2)); try lra. reflexivity.
Qed.

Lemma rne_mono x y : x <= y -> (rne x <= rne y)%Z.
Proof.
  intros Hxy.
  assert (Hf : (Zfloor x <= Zfloor y)%Z).
  { apply Zfloor_lub. pose proof (Zfloor_bound x). lra. }
  pose proof (Zfloor_bound x) as Hx. pose proof (Zfloor_bound y) as Hy.
  destruct (Z.eq_dec (Zfloor x) (Zfloor y)) as [E|N].
  - unfold rne. rewrite <- E in *.
    destruct (Rcompare_spec (x - IZR (Zfloor x)) (1/2));
    destruct (Rcompare_spec (y - IZR (Zfloor x)) (1/2));
    destruct (Z.even (Zfloor x)); try lia; lra.
  - assert (Hlt : (Zfloor x + 1 <= Zfloor y)%Z) by lia.
    assert (rne x <= Zfloor x + 1)%Z.
    { unfold rne. destruct (Rcompare (x - IZR (Zfloor x)) (1/2));
        destruct (Z.even (Zfloor x)); lia. }
    assert (Zfloor y <= rne y)%Z.
    { unfold rne. destruct (Rcompare (y - IZR (Zfloor y)) (1/2));
        destruct (Z.even (Zfloor y)); lia. }
    lia.
Qed.

Lemma rne_opp x : rne (- x) = (- rne x)%Z.
Proof.
  unfold rne. pose proof (Zfloor_bound x) as Hx.
  destruct (Req_dec x (IZR (Zfloor x))) as [E|N].
  - rewrite (Zfloor_eq (- Zfloor x)) by (rewrite opp_IZR; lra).
    rewrite opp_IZR.
    destruct (Rcompare_spec (- x - - IZR (Zfloor x)) (1/2)); try lra.
    destruct (Rcompare_spec (x - IZR (Zfloor x)) (1/2)); try lra.
    reflexivity.
  - rewrite (Zfloor_eq (- Zfloor x - 1)) by (rewrite minus_IZR, opp_IZR; lra).
    rewrite minus_IZR, opp_IZR.
    destruct (Rcompare_spec (- x - (- IZR (Zfloor x) - 1)) (1/2));
    destruct (Rcompare_spec (x - IZR (Zfloor x)) (1/2)); try lra; try lia.
    replace (- Zfloor x - 1)%Z with (- (Zfloor x + 1))%Z by lia.
    rewrite Z.even_opp.
    replace (Zfloor x + 1)%Z with (Z.succ (Zfloor x)) by lia.
    rewrite Z.even_succ, <- Z.negb_even.
    destruct (Z.even (Zfloor x)); simpl; lia.
Qed.

Lemma rne_le_int x n : x <= IZR n -> (rne x <= n)%Z.
Proof. intros H. rewrite <- (rne_IZR n). now apply rne_mono. Qed.

Lemma rne_ge_int x n : IZR n <= x -> (n <= rne x)%Z.
Proof. intros H. rewrite <- (rne_IZR n). now apply rne_mono. Qed.

(** ** Shifts to the right keep the location *)

Lemma located_bounds m l x : located m l x -> IZR m <= x < IZR m + 1.
Proof. destruct l as [|[| |]]; simpl; lra. Qed.

Lemma IZR_xO p : IZR (Zpos p~0) = 2 * IZR (Zpos p).
Proof. rewrite Pos2Z.inj_xO, mult_IZR. reflexivity. Qed.

Lemma IZR_xI p : IZR (Zpos p~1) = 2 * IZR (Zpos p) + 1.
Proof. rewrite Pos2Z.inj_xI, plus_IZR, mult_IZR. reflexivity. Qed.

(** One step of [shr_1] halves the located real. *)
Lemma shr_1_located mrs x :
  rec_located mrs x -> rec_located (shr_1 mrs) (x / 2).
Proof.
  destruct mrs as [m r s]. unfold rec_located. cbn [shr_m].
  intros [Hm H]. destruct m as [|p|p]; [| |lia].
  - destruct r, s; cbn in *; split; try lia; lra.
  - destruct p as [p|p|]; destruct r, s;
      cbn [shr_1 shr_m loc_of_shr_record located orb] in *;
      rewrite ?(IZR_xO p), ?(IZR_xI p) in H; split; try lia; lra.
Qed.

(** [p] steps divide it by [2^p]. *)
Lemma iter_shr_1_located p : forall mrs x,
  rec_located mrs x ->
  rec_located (iter_pos shr_1 p mrs) (x / bpow (Zpos p)).
Proof.
  induction p as [p IH|p IH|]; intros mrs x H; cbn [iter_pos].
  - apply shr_1_located in H. apply IH in H. apply IH in H.
    replace (x / bpow (Zpos p~1)) with (x / 2 / bpow (Zpos p) / bpow (Zpos p)); [exact H|].
    rewrite !div_bpow. rewrite <- bpow_1 at 1. rewrite div_bpow.
    f_equal. f_equal. lia.
  - apply IH in H. apply IH in H.
    replace (x / bpow (Zpos p~0)) with (x / bpow (Zpos p) / bpow (Zpos p)); [exact H|].
    rewrite !div_bpow. f_equal. f_equal. lia.
  - apply shr_1_located in H. now rewrite bpow_1.
Qed.

Lemma rec_of_loc m l x :
  (0 <= m)%Z -> located m l x -> rec_located (shr_record_of_loc m l) x.
Proof.
  intros Hm H. split.
  - destruct l as [|[| |]]; assumption.
  - destruct l as [|[| |]]; exact H.
Qed.

(** [round_nearest_even] reads the location as [rne] reads the real. *)
Lemma round_nearest_even_rne m l x :
  located m l x -> round_nearest_even m l = rne x.
Proof.
  intros H. pose proof (located_bounds _ _ _ H) as Hb.
  unfold rne. rewrite (Zfloor_eq m) by assumption.
  destruct l as [|[| |]]; cbn in *;
    destruct (Rcompare_spec (x - IZR m) (1/2)); try lra; reflexivity.
Qed.

(** [digits2_pos p] is the number of bits of [p]. *)
Lemma digits2_pos_spec p :
  (2 ^ (Zpos (digits2_pos p) - 1) <= Zpos p < 2 ^ Zpos (digits2_pos p))%Z.
Proof.
  induction p as [p IH|p IH|]; cbn [digits2_pos].
  - rewrite Pos2Z.inj_succ. replace (Z.succ (Zpos (digits2_pos p)) - 1)%Z
      with (Z.succ (Zpos (digits2_pos p) - 1)) by lia.
    rewrite !Z.pow_succ_r by lia. lia.
  - rewrite Pos2Z.inj_succ. replace (Z.succ (Zpos (digits2_pos p)) - 1)%Z
      with (Z.succ (Zpos (digits2_pos p) - 1)) by lia.
    rewrite !Z.pow_succ_r by lia. lia.
  - cbn. lia.
Qed.

Lemma digits2_pos_eq p d :
  (2 ^ (d - 1) <= Zpos p < 2 ^ d)%Z -> Zpos (digits2_pos p) = d.
Proof.
  intros H. pose proof (digits2_pos_spec p) as Hs.
  assert (0 < d)%Z.
  { destruct (Z_lt_le_dec 0 d); [assumption|].
    destruct (Z.eq_dec d 0) as [->|]; [cbn in H; lia|].
    rewrite (Z.pow_neg_r 2 d) in H by lia. lia. }
  assert (Zpos (digits2_pos p) - 1 < d)%Z.
  { apply (Z.pow_lt_mono_r_iff 2); lia. }
  assert (d - 1 < Zpos (digits2_pos p))%Z.
  { apply (Z.pow_lt_mono_r_iff 2); lia. }
  lia.
Qed.

(** ** [binary_round_aux] *)

Lemma fexp_normal e : (-1074 <= e - 53)%Z -> fexp 53 1024 e = (e - 53)%Z.
Proof. unfold fexp, emin. lia. Qed.

Lemma Zdigits2_pos p : Zdigits2 (Zpos p) = Zpos (digits2_pos p).
Proof. reflexivity. Qed.

(** On a mantissa of at least 53 bits, in the normal range, [shr_fexp]
    shifts down to exactly 53 bits and keeps the location. *)
Lemma shr_fexp_located m l ex x :
  (0 < m)%Z ->
  located m l (x / bpow ex) ->
  (53 <= Zdigits2 m)%Z ->
  (-1074 <= ex + Zdigits2 m - 53)%Z ->
  exists mrs,
    shr_fexp 53 1024 m ex l = (mrs, (ex + Zdigits2 m - 53)%Z) /\
    rec_located mrs (x / bpow (ex + Zdigits2 m - 53)).
Proof.
  intros Hm Hl Hd He. unfold shr_fexp.
  rewrite fexp_normal by lia.
  replace (Zdigits2 m + ex - 53 - ex)%Z with (Zdigits2 m - 53)%Z by lia.
  assert (Hr : rec_located (shr_record_of_loc m l) (x / bpow ex))
    by (apply rec_of_loc; [lia|assumption]).
  destruct (Zdigits2 m - 53)%Z as [|p|p] eqn:Hn; [| |lia]; cbn [shr].
  - exists (shr_record_of_loc m l). split.
    + f_equal. lia.
    + replace (ex + Zdigits2 m - 53)%Z with ex by lia. exact Hr.
  - exists (iter_pos shr_1 p (shr_record_of_loc m l)). split.
    + f_equal. lia.
    + apply (iter_shr_1_located p) in Hr. rewrite div_bpow in Hr.
      replace (ex + Zdigits2 m - 53)%Z with (ex + Zpos p)%Z by lia. exact Hr.
Qed.

Lemma IZR_pow2 n : (0 <= n)%Z -> IZR (2 ^ n) = bpow n.
Proof. intros. now rewrite bpow_IZR. Qed.

Lemma located_digits_bounds m l ex x :
  (0 < m)%Z ->
  located m l (x / bpow ex) ->
  bpow (ex + Zdigits2 m - 1) <= x < bpow (ex + Zdigits2 m).
Proof.
  intros Hm Hl. apply located_bounds in Hl.
  destruct m as [|p|p]; try lia. rewrite Zdigits2_pos.
  pose proof (digits2_pos_spec p) as [H1 H2].
  assert (H3 : (Zpos p + 1 <= 2 ^ Zpos (digits2_pos p))%Z) by lia.
  apply IZR_le in H1, H3. rewrite plus_IZR in H3.
  rewrite IZR_pow2 in H1, H3 by lia.
  pose proof (bpow_gt_0 ex) as Hex.
  replace (ex + Zpos (digits2_pos p) - 1)%Z with ((Zpos (digits2_pos p) - 1) + ex)%Z by lia.
  replace (ex + Zpos (digits2_pos p))%Z with (Zpos (digits2_pos p) + ex)%Z by lia.
  rewrite !bpow_add.
  assert (Hx : x = x / bpow ex * bpow ex) by (field; lra).
  split.
  - rewrite Hx. apply Rmult_le_compat_r; lra.
  - rewrite Hx at 1. apply Rmult_lt_compat_r; lra.
Qed.

Lemma scaled_bounds x a b c :
  bpow a <= x < bpow b -> bpow (a - c) <= x / bpow c < bpow (b - c).
Proof.
  intros [H1 H2]. pose proof (bpow_gt_0 c) as Hc.
  replace a with ((a - c) + c)%Z in H1 by lia.
  replace b with ((b - c) + c)%Z in H2 by lia.
  rewrite bpow_add in H1, H2.
  split.
  - apply Rmult_le_reg_r with (bpow c); [assumption|].
    replace (x / bpow c * bpow c) with x by (field; lra). assumption.
  - apply Rmult_lt_reg_r with (bpow c); [assumption|].
    replace (x / bpow c * bpow c) with x by (field; lra). assumption.
Qed.

(** [binary_round_aux] on a located positive real [x]: the result is a
    normal number, [x] lies in the binade of exponent [ex + digits - 53],
    and the value is [x] rounded there by [rne] (a carry to [2^53] moves
    the result to the next binade, with the same value). *)
Lemma bra_correct s m ex l x :
  (0 < m)%Z ->
  located m l (x / bpow ex) ->
  (53 <= Zdigits2 m)%Z ->
  (-1074 <= ex + Zdigits2 m - 53)%Z ->
  (ex + Zdigits2 m - 53 < 971)%Z ->
  exists m' e',
    binary_round_aux 53 1024 s m ex l = S754_finite s m' e' /\
    (2 ^ 52 <= Zpos m' < 2 ^ 53)%Z /\
    (ex + Zdigits2 m - 53 <= e' <= ex + Zdigits2 m - 52)%Z /\
    bpow (ex + Zdigits2 m - 1) <= x < bpow (ex + Zdigits2 m) /\
    IZR (Zpos m') * bpow e'
    = IZR (rne (x / bpow (ex + Zdigits2 m - 53))) * bpow (ex + Zdigits2 m - 53).
Proof.
  intros Hm Hl Hd Hlo Hhi.
  pose proof (located_digits_bounds m l ex x Hm Hl) as Hx.
  destruct (shr_fexp_located m l ex x Hm Hl Hd Hlo) as [mrs1 [E1 [Hm1 L1]]].
  set (e1 := (ex + Zdigits2 m - 53)%Z) in *.
  set (y := x / bpow e1) in *.
  assert (Hy : bpow 52 <= y < bpow 53).
  { pose proof (scaled_bounds x _ _ e1 Hx) as Hs.
    replace (ex + Zdigits2 m - 1 - e1)%Z with 52%Z in Hs by (unfold e1; lia).
    replace (ex + Zdigits2 m - e1)%Z with 53%Z in Hs by (unfold e1; lia).
    exact Hs. }
  pose proof (round_nearest_even_rne _ _ _ L1) as Hr.
  assert (Hm2 : (2 ^ 52 <= rne y <= 2 ^ 53)%Z).
  { split; [apply rne_ge_int | apply rne_le_int];
      rewrite IZR_pow2 by lia; lra. }
  unfold binary_round_aux. rewrite E1. rewrite Hr.
  destruct (Z.eq_dec (rne y) (2 ^ 53)) as [Ec|Nc].
  - rewrite Ec. exists (2 ^ 52)%positive, (e1 + 1)%Z.
    unfold shr_fexp. cbn [Zdigits2 Z.pow Z.pow_pos Pos.iter Z.mul Pos.mul digits2_pos Pos.succ].
    rewrite fexp_normal by lia.
    replace (54 + e1 - 53 - e1)%Z with 1%Z by lia.
    cbn [shr iter_pos shr_1 shr_record_of_loc shr_m].
    replace (e1 + 1 <=? 1024 - 53)%Z with true by (symmetry; apply Z.leb_le; lia).
    repeat split; try (cbn; lia); try lia; try apply Hx.
    rewrite bpow_add, bpow_1. cbn. lra.
  - destruct (rne y) as [|p|p] eqn:Ep; try lia.
    exists p, e1.
    unfold shr_fexp. rewrite Zdigits2_pos.
    rewrite (digits2_pos_eq p 53) by (cbn; lia).
    rewrite fexp_normal by lia.
    replace (53 + e1 - 53 - e1)%Z with 0%Z by lia.
    cbn [shr shr_record_of_loc shr_m].
    replace (e1 <=? 1024 - 53)%Z with true by (symmetry; apply Z.leb_le; lia).
    repeat split; try lia; apply Hx.
Qed.

(** ** The rounding relation *)

Lemma nice_weaken W W' f : (W <= W')%Z -> nice W f -> nice W' f.
Proof. destruct f; simpl; intuition lia. Qed.

Lemma binade_unique x e e' :
  bpow (e + 52) <= x < bpow (e + 53) ->
  bpow (e' + 52) <= x < bpow (e' + 53) -> e = e'.
Proof.
  intros [H1 H2] [H3 H4].
  assert (e + 52 < e' + 53)%Z by (apply bpow_lt_inv; lra).
  assert (e' + 52 < e + 53)%Z by (apply bpow_lt_inv; lra).
  lia.
Qed.

Lemma rnd_pos_bounds x r e :
  bpow (e + 52) <= x < bpow (e + 53) ->
  r = IZR (rne (x / bpow e)) * bpow e ->
  bpow (e + 52) <= r <= bpow (e + 53).
Proof.
  intros Hx ->. pose proof (bpow_gt_0 e) as He.
  pose proof (scaled_bounds x _ _ e Hx) as Hs.
  replace (e + 52 - e)%Z with 52%Z in Hs by lia.
  replace (e + 53 - e)%Z with 53%Z in Hs by lia.
  rewrite !(bpow_add e). rewrite !(Rmult_comm (bpow e)).
  rewrite <- (IZR_pow2 52), <- (IZR_pow2 53) by lia.
  rewrite <- (IZR_pow2 52), <- (IZR_pow2 53) in Hs by lia.
  split; apply Rmult_le_compat_r; try lra; apply IZR_le.
  - apply rne_ge_int. lra.
  - apply rne_le_int. lra.
Qed.

Lemma rnd_pos_pos x r : rnd_pos x r -> 0 < r.
Proof.
  intros [e [Hx Hr]]. pose proof (rnd_pos_bounds x r e Hx Hr).
  pose proof (bpow_gt_0 (e + 52)). lra.
Qed.

(** Rounding is monotone: within one binade by [rne_mono], across
    binades because a power of two separates the results. *)
Lemma rnd_pos_mono x y rx ry :
  rnd_pos x rx -> rnd_pos y ry -> x <= y -> rx <= ry.
Proof.
  intros [e [Hx Hrx]] [e' [Hy Hry]] Hxy.
  destruct (Z.eq_dec e e') as [<-|Ne].
  - subst. pose proof (bpow_gt_0 e) as He.
    apply Rmult_le_compat_r; [lra|]. apply IZR_le, rne_mono.
    apply Rmult_le_compat_r; [|assumption].
    apply Rlt_le, Rinv_0_lt_compat, He.
  - assert (e + 52 < e' + 53)%Z by (apply bpow_lt_inv; lra).
    assert (e + 53 <= e' + 52)%Z by lia.
    pose proof (rnd_pos_bounds x rx e Hx Hrx).
    pose proof (rnd_pos_bounds y ry e' Hy Hry).
    pose proof (bpow_le _ _ H0). lra.
Qed.

(** The same for reals of any sign. *)
Lemma rounds_mono x y rx ry :
  rounds x rx -> rounds y ry -> x <= y -> rx <= ry.
Proof.
  intros [[Hx Hrx]|[[Hx Hrx]|[Hx Hrx]]] [[Hy Hry]|[[Hy Hry]|[Hy Hry]]] Hxy;
    try lra.
  - apply rnd_pos_pos in Hry. lra.
  - eapply rnd_pos_mono; eassumption.
  - apply rnd_pos_pos in Hrx. lra.
  - apply rnd_pos_pos in Hrx, Hry. lra.
  - assert (- ry <= - rx) by (eapply rnd_pos_mono; try eassumption; lra). lra.
Qed.

Lemma rounds_opp x r : rounds x r -> rounds (- x) (- r).
Proof.
  intros [[Hx Hr]|[[Hx Hr]|[Hx Hr]]].
  - left. split; lra.
  - right. right. split; [lra|]. now rewrite !Ropp_involutive.
  - right. left. split; [lra|]. assumption.
Qed.

Lemma rnd_pos_exact k c r :
  (0 < k < 2 ^ 53)%Z -> rnd_pos (IZR k * bpow c) r -> r = IZR k * bpow c.
Proof.
  intros Hk [e [Hx ->]].
  assert (Hec : (e <= c)%Z).
  { assert (e + 52 < 53 + c)%Z; [|lia]. apply bpow_lt_inv.
    eapply Rle_lt_trans; [apply Hx|]. rewrite bpow_add.
    apply Rmult_lt_compat_r; [apply bpow_gt_0|].
    rewrite <- IZR_pow2 by lia. apply IZR_lt. lia. }
  assert (Hc : bpow c = bpow (c - e) * bpow e)
    by (rewrite <- bpow_add; f_equal; lia).
  rewrite Hc. pose proof (bpow_gt_0 e).
  replace (IZR k * (bpow (c - e) * bpow e) / bpow e) with (IZR k * bpow (c - e))
    by (field; lra).
  rewrite <- (IZR_pow2 (c - e)) by lia.
  rewrite <- mult_IZR, rne_IZR, mult_IZR. ring.
Qed.

(** A dyadic number with fewer than 54 significant bits rounds to
    itself. *)
Lemma rounds_exact k c r :
  (Z.abs k < 2 ^ 53)%Z -> rounds (IZR k * bpow c) r -> r = IZR k * bpow c.
Proof.
  intros Hk [[Hx Hr]|[[Hx Hr]|[Hx Hr]]].
  - lra.
  - apply rnd_pos_exact; [|assumption].
    pose proof (bpow_gt_0 c). destruct (Z_lt_le_dec 0 k); [lia|].
    apply IZR_le in l. nra.
  - replace (- (IZR k * bpow c)) with (IZR (- k) * bpow c) in Hr
      by (rewrite opp_IZR; ring).
    apply rnd_pos_exact in Hr.
    + rewrite opp_IZR in Hr. lra.
    + pose proof (bpow_gt_0 c). destruct (Z_lt_le_dec k 0); [lia|].
      apply IZR_le in l. nra.
Qed.

(** A normal double rounds to itself. *)
Lemma rounds_nice W f : nice W f -> rounds (B2R f) (B2R f).
Proof.
  destruct f as [s|s| |s m e]; simpl; try tauto.
  - intros _. left. split; reflexivity.
  - intros [Hm _].
    assert (Hp : rnd_pos (IZR (Zpos m) * bpow e) (IZR (Zpos m) * bpow e)).
    { exists e. pose proof (bpow_gt_0 e) as He. split.
      - rewrite !(bpow_add e), !(Rmult_comm (bpow e)).
        rewrite <- (IZR_pow2 52), <- (IZR_pow2 53) by lia. split.
        + apply Rmult_le_compat_r; [lra|]. apply IZR_le. lia.
        + apply Rmult_lt_compat_r; [lra|]. apply IZR_lt. lia.
      - replace (IZR (Zpos m) * bpow e / bpow e) with (IZR (Zpos m)) by (field; lra).
        now rewrite rne_IZR. }
    pose proof (rnd_pos_pos _ _ Hp) as Hpos.
    destruct s; unfold sgn.
    + right. right. split; [lra|].
      replace (- (-1 * (IZR (Zpos m) * bpow e))) with (IZR (Zpos m) * bpow e) by ring.
      exact Hp.
    + right. left. split; [lra|]. rewrite Rmult_1_l. exact Hp.
Qed.

(** [binary_round_aux] in terms of [nice] and [rounds]. *)
Lemma bra_rounds W s m ex l x :
  (0 < m)%Z ->
  located m l (x / bpow ex) ->
  (53 <= Zdigits2 m)%Z ->
  (- W <= ex + Zdigits2 m - 53)%Z ->
  (ex + Zdigits2 m - 52 <= W)%Z ->
  (W <= 970)%Z ->
  nice W (binary_round_aux 53 1024 s m ex l) /\
  rounds (sgn s * x) (B2R (binary_round_aux 53 1024 s m ex l)) /\
  B2R (binary_round_aux 53 1024 s m ex l) <> 0.
Proof.
  intros Hm Hl Hd Hlo Hhi HW.
  destruct (bra_correct s m ex l x Hm Hl Hd) as [m' [e' [E [Hm' [He' [Hx Hv]]]]]];
    try lia.
  rewrite E. cbn [nice B2R]. split; [split; lia|].
  assert (Hp : rnd_pos x (IZR (Zpos m') * bpow e')).
  { exists (ex + Zdigits2 m - 53)%Z. split; [|exact Hv].
    replace (ex + Zdigits2 m - 53 + 52)%Z with (ex + Zdigits2 m - 1)%Z by lia.
    replace (ex + Zdigits2 m - 53 + 53)%Z with (ex + Zdigits2 m)%Z by lia.
    exact Hx. }
  pose proof (rnd_pos_pos _ _ Hp) as Hpos.
  assert (0 < x) by (pose proof (bpow_gt_0 (ex + Zdigits2 m - 1)); lra).
  destruct s; unfold sgn; split; try lra.
  - right. right. split; [lra|].
    replace (- (-1 * x)) with x by ring.
    replace (- (-1 * (IZR (Zpos m') * bpow e'))) with (IZR (Zpos m') * bpow e') by ring.
    exact Hp.
  - right. left. split; [lra|]. rewrite !Rmult_1_l. exact Hp.
Qed.

(** ** Normalisation of an integer mantissa *)

Lemma iter_xO m d : Zpos (Pos.iter xO m d) = (Zpos m * 2 ^ Zpos d)%Z.
Proof.
  induction d as [|d IH] using Pos.peano_ind.
  - cbn [Pos.iter]. rewrite Pos2Z.inj_xO. lia.
  - rewrite Pos.iter_succ, Pos2Z.inj_xO, IH, Pos2Z.inj_succ.
    rewrite Z.pow_succ_r by lia. lia.
Qed.

Lemma digits_shift m k :
  (0 <= k)%Z ->
  Zdigits2 (Zpos m * 2 ^ k) = (Zpos (digits2_pos m) + k)%Z.
Proof.
  intros Hk. pose proof (digits2_pos_spec m) as [H1 H2].
  assert (Hp : (0 < 2 ^ k)%Z) by (apply Z.pow_pos_nonneg; lia).
  destruct (Zpos m * 2 ^ k)%Z as [|p|p] eqn:E; try lia.
  rewrite Zdigits2_pos. apply digits2_pos_eq. rewrite <- E.
  replace (Zpos (digits2_pos m) + k - 1)%Z with ((Zpos (digits2_pos m) - 1) + k)%Z by lia.
  rewrite !Z.pow_add_r by lia. nia.
Qed.

(** [binary_round]: a short mantissa is first shifted left to 53 bits. *)
Lemma binary_round_rounds W s m e :
  (- W <= e + Zpos (digits2_pos m) - 53)%Z ->
  (e + Zpos (digits2_pos m) - 52 <= W)%Z ->
  (W <= 970)%Z ->
  nice W (binary_round 53 1024 s m e) /\
  rounds (sgn s * (IZR (Zpos m) * bpow e)) (B2R (binary_round 53 1024 s m e)) /\
  B2R (binary_round 53 1024 s m e) <> 0.
Proof.
  intros Hlo Hhi HW. unfold binary_round.
  rewrite fexp_normal by lia. unfold shl_align.
  set (d := Zpos (digits2_pos m)) in *.
  replace (d + e - 53 - e)%Z with (d - 53)%Z by lia.
  pose proof (bpow_gt_0 e) as He.
  destruct (d - 53)%Z as [|k|k] eqn:Ek.
  - apply bra_rounds; try (rewrite Zdigits2_pos; fold d; lia); try lia.
    cbn [located]. field. lra.
  - apply bra_rounds; try (rewrite Zdigits2_pos; fold d; lia); try lia.
    cbn [located]. field. lra.
  - assert (Hz : Zpos (Pos.iter xO m k) = (Zpos m * 2 ^ Zpos k)%Z) by apply iter_xO.
    assert (Hd : Zdigits2 (Zpos (Pos.iter xO m k)) = 53%Z).
    { rewrite Hz, digits_shift by lia. fold d. lia. }
    apply bra_rounds; rewrite ?Hd; try lia.
    cbn [located]. rewrite Hz, mult_IZR, IZR_pow2 by lia.
    pose proof (bpow_gt_0 (d + e - 53)).
    replace e with (Zpos k + (d + e - 53))%Z at 1 by lia.
    rewrite bpow_add. field. lra.
Qed.

(** [binary_normalize] rounds the integer [M] scaled by [2^e]. *)
Lemma binary_normalize_rounds W M e :
  (M <> 0%Z -> (- W <= e + Zdigits2 M - 53)%Z /\ (e + Zdigits2 M - 52 <= W)%Z) ->
  (W <= 970)%Z ->
  nice W (binary_normalize 53 1024 M e false) /\
  rounds (IZR M * bpow e) (B2R (binary_normalize 53 1024 M e false)) /\
  (M <> 0%Z -> B2R (binary_normalize 53 1024 M e false) <> 0).
Proof.
  intros H HW. destruct M as [|p|p]; cbn [binary_normalize].
  - cbn. split; [exact I|]. split; [|congruence]. left. split; ring.
  - destruct H as [H1 H2]; [discriminate|]. rewrite Zdigits2_pos in *.
    destruct (binary_round_rounds W false p e H1 H2 HW) as [A [B C]].
    split; [exact A|]. split; [|intros _; exact C].
    unfold sgn in B. rewrite Rmult_1_l in B. exact B.
  - destruct H as [H1 H2]; [discriminate|]. cbn [Zdigits2] in *.
    destruct (binary_round_rounds W true p e H1 H2 HW) as [A [B C]].
    split; [exact A|]. split; [|intros _; exact C].
    unfold sgn in B.
    replace (IZR (Zneg p) * bpow e) with (-1 * (IZR (Zpos p) * bpow e)); [exact B|].
    change (Zneg p) with (- Zpos p)%Z. rewrite opp_IZR. ring.
Qed.

(** ** Conversion from [int], addition and subtraction *)

Lemma Zdigits2_bounds z :
  z <> 0%Z -> (2 ^ (Zdigits2 z - 1) <= Z.abs z < 2 ^ Zdigits2 z)%Z.
Proof.
  destruct z as [|p|p]; [congruence| |]; intros _; cbn [Zdigits2 Z.abs];
    apply digits2_pos_spec.
Qed.

Lemma Zdigits2_le z n :
  (0 <= n)%Z -> (Z.abs z < 2 ^ n)%Z -> (Zdigits2 z <= n)%Z.
Proof.
  intros Hn Hz. destruct (Z.eq_dec z 0) as [->|Nz]; [cbn; lia|].
  pose proof (Zdigits2_bounds z Nz) as [H1 H2].
  assert (Zdigits2 z - 1 < n)%Z; [|lia].
  apply (Z.pow_lt_mono_r_iff 2); lia.
Qed.

Lemma Zdigits2_ge z n :
  (2 ^ n <= Z.abs z)%Z -> (n < Zdigits2 z)%Z.
Proof.
  intros Hz. destruct (Z_lt_le_dec n 0) as [Hn|Hn].
  - destruct z; cbn; lia.
  - assert (0 < 2 ^ n)%Z by (apply Z.pow_pos_nonneg; lia).
    pose proof (Zdigits2_bounds z ltac:(lia)) as [H1 H2].
    destruct (Z_lt_le_dec 0 (Zdigits2 z)) as [Hd|Hd].
    + apply (Z.pow_lt_mono_r_iff 2); lia.
    + destruct z; cbn in Hd; lia.
Qed.

Lemma Zdigits2_pos_ge1 z : z <> 0%Z -> (1 <= Zdigits2 z)%Z.
Proof. destruct z; cbn; intros; lia. Qed.

(** The conversion of an integer below [2^53] is exact. *)
Lemma of_int_correct z :
  (Z.abs z < 2 ^ 53)%Z ->
  nice 52 (binary_normalize 53 1024 z 0 false) /\
  B2R (binary_normalize 53 1024 z 0 false) = IZR z.
Proof.
  intros Hz.
  destruct (binary_normalize_rounds 52 z 0) as [A [B _]]; [|lia|].
  - intros Nz. pose proof (Zdigits2_pos_ge1 z Nz).
    pose proof (Zdigits2_le z 53 ltac:(lia) Hz). lia.
  - split; [exact A|].
    rewrite (rounds_exact z 0 _ Hz B). rewrite bpow_0. ring.
Qed.

(** The mantissa that [shl_align] yields for a smaller exponent. *)
Lemma shl_align_fst m e e' :
  (e' <= e)%Z -> Zpos (fst (shl_align m e e')) = (Zpos m * 2 ^ (e - e'))%Z.
Proof.
  intros H. unfold shl_align. destruct (e' - e)%Z as [|d|d] eqn:E; try lia.
  - replace (e - e')%Z with 0%Z by lia. cbn [fst]. lia.
  - cbn [fst]. rewrite iter_xO. f_equal. f_equal. lia.
Qed.

Lemma IZR_cond_Zopp s z : IZR (cond_Zopp s z) = sgn s * IZR z.
Proof. destruct s; cbn [cond_Zopp sgn]; rewrite ?opp_IZR; ring. Qed.

Lemma aligned_value s m e e' :
  (e' <= e)%Z ->
  IZR (cond_Zopp s (Zpos (fst (shl_align m e e')))) * bpow e'
  = sgn s * (IZR (Zpos m) * bpow e).
Proof.
  intros H. rewrite IZR_cond_Zopp, shl_align_fst, mult_IZR, IZR_pow2 by lia.
  replace e with ((e - e') + e')%Z at 2 by lia. rewrite bpow_add. ring.
Qed.

Lemma aligned_bound s m e e' emx :
  (e' <= e <= emx)%Z -> (Zpos m < 2 ^ 53)%Z ->
  (Z.abs (cond_Zopp s (Zpos (fst (shl_align m e e')))) < 2 ^ (53 + (emx - e')))%Z.
Proof.
  intros He Hm. rewrite shl_align_fst by lia.
  assert (Z.abs (cond_Zopp s (Zpos m * 2 ^ (e - e'))) = Zpos m * 2 ^ (e - e'))%Z as ->.
  { assert (0 < 2 ^ (e - e'))%Z by (apply Z.pow_pos_nonneg; lia).
    destruct s; cbn [cond_Zopp]; lia. }
  rewrite Z.pow_add_r by lia.
  assert (0 < 2 ^ (e - e') <= 2 ^ (emx - e'))%Z.
  { split; [apply Z.pow_pos_nonneg; lia|apply Z.pow_le_mono_r; lia]. }
  nia.
Qed.

Lemma sum_window W M ez emx :
  (- W <= ez)%Z -> (emx <= W)%Z -> (ez <= emx)%Z ->
  (Z.abs M < 2 ^ (54 + (emx - ez)))%Z ->
  M <> 0%Z ->
  (- (W + 54) <= ez + Zdigits2 M - 53)%Z /\ (ez + Zdigits2 M - 52 <= W + 54)%Z.
Proof.
  intros H1 H2 H3 HM Nz.
  pose proof (Zdigits2_pos_ge1 M Nz).
  pose proof (Zdigits2_le M (54 + (emx - ez)) ltac:(lia) HM). lia.
Qed.

Section Ops.

Variables (W : Z) (x y : spec_float).
Hypothesis HW : (W + 54 <= 970)%Z.
Hypothesis Hx : nice W x.
Hypothesis Hy : nice W y.

Lemma pow_54 a : (0 <= a)%Z -> (2 ^ (54 + a) = 2 * 2 ^ (53 + a))%Z.
Proof. intros. replace (54 + a)%Z with (Z.succ (53 + a)) by lia.
  rewrite Z.pow_succ_r by lia. reflexivity. Qed.

(** Addition of two normal doubles (or zeros) is correctly rounded. *)
Lemma SFadd_rounds :
  nice (W + 54) (SFadd 53 1024 x y) /\
  rounds (B2R x + B2R y) (B2R (SFadd 53 1024 x y)).
Proof.
  destruct x as [sx|sx| |sx mx ex]; try contradiction;
  destruct y as [sy|sy| |sy my ey]; try contradiction.
  - assert (E : B2R (SFadd 53 1024 (S754_zero sx) (S754_zero sy)) = 0)
      by (destruct sx, sy; reflexivity).
    split; [destruct sx, sy; exact I|]. rewrite E. left. cbn. split; lra.
  - cbn [SFadd]. split; [eapply nice_weaken; [|exact Hy]; lia|].
    replace (B2R (S754_zero sx) + B2R (S754_finite sy my ey))
      with (B2R (S754_finite sy my ey)) by (cbn [B2R]; ring).
    exact (rounds_nice W _ Hy).
  - cbn [SFadd]. split; [eapply nice_weaken; [|exact Hx]; lia|].
    replace (B2R (S754_finite sx mx ex) + B2R (S754_zero sy))
      with (B2R (S754_finite sx mx ex)) by (cbn [B2R]; ring).
    exact (rounds_nice W _ Hx).
  - cbn [SFadd]. destruct Hx as [Hmx Hex], Hy as [Hmy Hey].
    set (ez := Z.min ex ey). set (emx := Z.max ex ey).
    set (a := cond_Zopp sx (Zpos (fst (shl_align mx ex ez)))).
    set (b := cond_Zopp sy (Zpos (fst (shl_align my ey ez)))).
    assert (Ha : (Z.abs a < 2 ^ (53 + (emx - ez)))%Z)
      by (apply aligned_bound; unfold ez, emx; lia).
    assert (Hb : (Z.abs b < 2 ^ (53 + (emx - ez)))%Z)
      by (apply aligned_bound; unfold ez, emx; lia).
    assert (Hab : (Z.abs (a + b) < 2 ^ (54 + (emx - ez)))%Z).
    { rewrite pow_54 by (unfold ez, emx; lia).
      clearbody a b. generalize dependent (2 ^ (53 + (emx - ez)))%Z. intros. lia. }
    destruct (binary_normalize_rounds (W + 54) (a + b) ez) as [A [B _]];
      [|lia|].
    + apply (sum_window W (a + b) ez emx);
        [unfold ez; lia|unfold emx; lia|unfold ez, emx; lia|exact Hab].
    + split; [exact A|]. cbn [B2R].
      replace (sgn sx * (IZR (Zpos mx) * bpow ex) + sgn sy * (IZR (Zpos my) * bpow ey))
        with (IZR (a + b) * bpow ez); [exact B|].
      rewrite plus_IZR, Rmult_plus_distr_r. unfold a, b.
      rewrite !aligned_value by (unfold ez; lia). reflexivity.
Qed.

(** Subtraction likewise. *)
Lemma SFsub_rounds :
  nice (W + 54) (SFsub 53 1024 x y) /\
  rounds (B2R x - B2R y) (B2R (SFsub 53 1024 x y)).
Proof.
  destruct x as [sx|sx| |sx mx ex]; try contradiction;
  destruct y as [sy|sy| |sy my ey]; try contradiction.
  - assert (E : B2R (SFsub 53 1024 (S754_zero sx) (S754_zero sy)) = 0)
      by (destruct sx, sy; reflexivity).
    split; [destruct sx, sy; exact I|]. rewrite E. left. cbn. split; lra.
  - cbn [SFsub]. split; [eapply (nice_weaken W); [lia|exact Hy]|].
    replace (B2R (S754_zero sx) - B2R (S754_finite sy my ey))
      with (- B2R (S754_finite sy my ey)) by (cbn; ring).
    replace (B2R (S754_finite (negb sy) my ey))
      with (- B2R (S754_finite sy my ey)) by (destruct sy; cbn; ring).
    apply rounds_opp. exact (rounds_nice W _ Hy).
  - cbn [SFsub]. split; [eapply nice_weaken; [|exact Hx]; lia|].
    replace (B2R (S754_finite sx mx ex) - B2R (S754_zero sy))
      with (B2R (S754_finite sx mx ex)) by (cbn [B2R]; ring).
    exact (rounds_nice W _ Hx).
  - cbn [SFsub]. destruct Hx as [Hmx Hex], Hy as [Hmy Hey].
    set (ez := Z.min ex ey). set (emx := Z.max ex ey).
    set (a := cond_Zopp sx (Zpos (fst (shl_align mx ex ez)))).
    set (b := cond_Zopp sy (Zpos (fst (shl_align my ey ez)))).
    assert (Ha : (Z.abs a < 2 ^ (53 + (emx - ez)))%Z)
      by (apply aligned_bound; unfold ez, emx; lia).
    assert (Hb : (Z.abs b < 2 ^ (53 + (emx - ez)))%Z)
      by (apply aligned_bound; unfold ez, emx; lia).
    assert (Hab : (Z.abs (a - b) < 2 ^ (54 + (emx - ez)))%Z).
    { rewrite pow_54 by (unfold ez, emx; lia).
      clearbody a b. generalize dependent (2 ^ (53 + (emx - ez)))%Z. intros. lia. }
    destruct (binary_normalize_rounds (W + 54) (a - b) ez) as [A [B _]];
      [|lia|].
    + apply (sum_window W (a - b) ez emx);
        [unfold ez; lia|unfold emx; lia|unfold ez, emx; lia|exact Hab].
    + split; [exact A|]. cbn [B2R].
      replace (sgn sx * (IZR (Zpos mx) * bpow ex) - sgn sy * (IZR (Zpos my) * bpow ey))
        with (IZR (a - b) * bpow ez); [exact B|].
      rewrite minus_IZR, Rmult_minus_distr_r. unfold a, b.
      rewrite !aligned_value by (unfold ez; lia). reflexivity.
Qed.

End Ops.

(** ** Multiplication and division *)

Lemma sgn_xorb a b : sgn (xorb a b) = sgn a * sgn b.
Proof. destruct a, b; cbn; ring. Qed.

(** Multiplication of two normal doubles (or zeros) is correctly
    rounded: the product of the mantissas has 105 or 106 bits. *)
Lemma SFmul_rounds W1 W2 x y :
  (W1 + W2 + 54 <= 970)%Z ->
  nice W1 x -> nice W2 y ->
  nice (W1 + W2 + 54) (SFmul 53 1024 x y) /\
  rounds (B2R x * B2R y) (B2R (SFmul 53 1024 x y)).
Proof.
  intros HW Hx Hy.
  destruct x as [sx|sx| |sx mx ex]; try contradiction;
  destruct y as [sy|sy| |sy my ey]; try contradiction;
    try (cbn [SFmul B2R]; split; [exact I|left; split; ring]).
  cbn [SFmul]. destruct Hx as [Hmx Hex], Hy as [Hmy Hey].
  assert (Hp : (2 ^ 104 <= Zpos (mx * my) < 2 ^ 106)%Z).
  { rewrite Pos2Z.inj_mul.
    change (2 ^ 104)%Z with (2 ^ 52 * 2 ^ 52)%Z.
    change (2 ^ 106)%Z with (2 ^ 53 * 2 ^ 53)%Z.
    remember (2 ^ 52)%Z as p52. remember (2 ^ 53)%Z as p53.
    assert (0 < p52)%Z by (subst; reflexivity). nia. }
  assert (Hd1 : (104 < Zdigits2 (Zpos (mx * my)))%Z)
    by (apply Zdigits2_ge; cbn [Z.abs]; lia).
  assert (Hd2 : (Zdigits2 (Zpos (mx * my)) <= 106)%Z)
    by (apply Zdigits2_le; cbn [Z.abs]; lia).
  destruct (bra_rounds (W1 + W2 + 54) (xorb sx sy) (Zpos (mx * my)) (ex + ey)
              loc_Exact (IZR (Zpos (mx * my)) * bpow (ex + ey)))
    as [A [B _]]; try lia.
  - cbn [located]. field. apply Rgt_not_eq, bpow_gt_0.
  - split; [exact A|]. cbn [B2R].
    replace (sgn sx * (IZR (Zpos mx) * bpow ex) * (sgn sy * (IZR (Zpos my) * bpow ey)))
      with (sgn (xorb sx sy) * (IZR (Zpos (mx * my)) * bpow (ex + ey))); [exact B|].
    rewrite sgn_xorb, Pos2Z.inj_mul, mult_IZR, bpow_add. ring.
Qed.

(** The location that the division attaches to the quotient [q] is that
    of the exact quotient [a / b]. *)
Lemma new_location_located a b q r :
  (0 < b)%Z -> (0 <= r < b)%Z -> (a = b * q + r)%Z ->
  located q (new_location b r) (IZR a / IZR b).
Proof.
  intros Hb Hr ->.
  assert (HB : 0 < IZR b) by (apply IZR_lt; assumption).
  assert (E : IZR (b * q + r) / IZR b = IZR q + IZR r / IZR b).
  { rewrite plus_IZR, mult_IZR. field. lra. }
  rewrite E. set (t := IZR r / IZR b).
  assert (Ht : t * IZR b = IZR r) by (unfold t; field; lra).
  assert (Ht1 : 0 <= IZR r < IZR b) by (split; [apply IZR_le|apply IZR_lt]; lia).
  assert (Hloc : forall c c',
    (r = 0%Z -> located q loc_Exact (IZR q + t)) ->
    (r <> 0%Z -> located q (loc_Inexact c) (IZR q + t)) ->
    c' = c ->
    located q (if Z.eqb r 0 then loc_Exact else loc_Inexact c') (IZR q + t)).
  { intros c c' H0 H1 ->. destruct (Z.eqb_spec r 0); auto. }
  assert (Hz : r = 0%Z -> located q loc_Exact (IZR q + t)).
  { intros ->. cbn [located]. unfold t. rewrite Rdiv_0_l. ring. }
  unfold new_location, new_location_even, new_location_odd.
  destruct (Z.even b) eqn:Ev.
  - apply (Hloc (Z.compare (2 * r) b)); [exact Hz| |reflexivity].
    intros Nr. assert (0 < IZR r) by (apply IZR_lt; lia).
    destruct (Z.compare_spec (2 * r) b) as [C|C|C]; cbn [located].
    + apply (f_equal IZR) in C. rewrite mult_IZR in C.
      assert (t = 1 / 2) by (apply Rmult_eq_reg_r with (IZR b); lra). lra.
    + apply IZR_lt in C. rewrite mult_IZR in C. nra.
    + apply IZR_lt in C. rewrite mult_IZR in C. nra.
  - apply (Hloc (if Z.ltb b (2 * r) then Gt else Lt)); [exact Hz| |].
    + intros Nr. assert (0 < IZR r) by (apply IZR_lt; lia).
      assert (Hodd : (2 * r <> b)%Z).
      { intros <-. rewrite Z.even_mul in Ev. discriminate. }
      destruct (Z.ltb_spec b (2 * r)) as [C|C]; cbn [located].
      * apply IZR_lt in C. rewrite mult_IZR in C. nra.
      * assert (C' : (2 * r < b)%Z) by lia.
        apply IZR_lt in C'. rewrite mult_IZR in C'. nra.
    + assert (Hodd : (2 * r <> b)%Z).
      { intros <-. rewrite Z.even_mul in Ev. discriminate. }
      destruct (Z.compare_spec (2 * r + 1) b) as [C|C|C];
        destruct (Z.ltb_spec b (2 * r)); try reflexivity; lia.
Qed.

(** Division of a normal double (or zero) by a normal double is
    correctly rounded: the integer quotient has 53 or 54 bits. *)
Lemma SFdiv_rounds W1 W2 x y :
  (W1 + W2 + 54 <= 970)%Z ->
  nice W1 x -> nice W2 y -> B2R y <> 0 ->
  nice (W1 + W2 + 54) (SFdiv 53 1024 x y) /\
  rounds (B2R x / B2R y) (B2R (SFdiv 53 1024 x y)).
Proof.
  intros HW Hx Hy Ny.
  destruct x as [sx|sx| |sx mx ex]; try contradiction;
  destruct y as [sy|sy| |sy my ey]; try contradiction;
    try (cbn [B2R] in Ny; congruence).
  - cbn [SFdiv B2R]. split; [exact I|]. left. split; [|reflexivity].
    unfold Rdiv. ring.
  - cbn [SFdiv]. destruct Hx as [Hmx Hex], Hy as [Hmy Hey].
    unfold SFdiv_core_binary. rewrite !Zdigits2_pos.
    rewrite (digits2_pos_eq mx 53), (digits2_pos_eq my 53) by (cbn; lia).
    rewrite fexp_normal by lia.
    replace (Z.min (53 + ex - (53 + ey) - 53) (ex - ey))%Z with (ex - ey - 53)%Z by lia.
    replace (ex - ey - (ex - ey - 53))%Z with 53%Z by lia.
    rewrite Z.shiftl_mul_pow2 by lia.
    pose proof (Z_div_mod (Zpos mx * 2 ^ 53) (Zpos my) ltac:(lia)) as Hdm.
    destruct (Z.div_eucl (Zpos mx * 2 ^ 53) (Zpos my)) as [q r].
    destruct Hdm as [Hq Hr].
    assert (Hqb : (2 ^ 52 <= q < 2 ^ 54)%Z).
    { change (2 ^ 54)%Z with (2 * 2 ^ 53)%Z.
      remember (2 ^ 52)%Z as p52. remember (2 ^ 53)%Z as p53.
      assert (p53 = 2 * p52)%Z by (subst; reflexivity).
      assert (0 < p52)%Z by (subst; reflexivity). nia. }
    assert (Hd1 : (52 < Zdigits2 q)%Z) by (apply Zdigits2_ge; lia).
    assert (Hd2 : (Zdigits2 q <= 54)%Z) by (apply Zdigits2_le; lia).
    pose proof (bpow_gt_0 ex). pose proof (bpow_gt_0 ey).
    pose proof (bpow_gt_0 (ex - ey - 53)).
    assert (0 < IZR (Zpos mx)) by (apply IZR_lt; lia).
    assert (0 < IZR (Zpos my)) by (apply IZR_lt; lia).
    destruct (bra_rounds (W1 + W2 + 54) (xorb sx sy) q (ex - ey - 53)
                (new_location (Zpos my) r)
                (IZR (Zpos mx) * bpow ex / (IZR (Zpos my) * bpow ey)))
      as [A [B _]]; try lia.
    + replace (IZR (Zpos mx) * bpow ex / (IZR (Zpos my) * bpow ey) / bpow (ex - ey - 53))
        with (IZR (Zpos mx * 2 ^ 53) / IZR (Zpos my)).
      * apply new_location_located; lia.
      * rewrite mult_IZR, IZR_pow2 by lia.
        replace ex with (53 + ey + (ex - ey - 53))%Z at 1 by lia.
        rewrite !bpow_add. field. lra.
    + split; [exact A|]. cbn [B2R].
      replace (sgn sx * (IZR (Zpos mx) * bpow ex) / (sgn sy * (IZR (Zpos my) * bpow ey)))
        with (sgn (xorb sx sy) * (IZR (Zpos mx) * bpow ex / (IZR (Zpos my) * bpow ey)));
        [exact B|].
      rewrite sgn_xorb. destruct sx, sy; cbn [sgn]; field; lra.
Qed.

(** ** The cast to [int] *)

Lemma Zfloor_IZR n : Zfloor (IZR n) = n.
Proof. apply Zfloor_eq. lra. Qed.

Lemma Zfloor_mono x y : x <= y -> (Zfloor x <= Zfloor y)%Z.
Proof. intros H. apply Zfloor_lub. pose proof (Zfloor_bound x). lra. Qed.

Lemma Rtrunc_mono x y : x <= y -> (Rtrunc x <= Rtrunc y)%Z.
Proof.
  intros H. unfold Rtrunc.
  destruct (Rcompare_spec x 0); destruct (Rcompare_spec y 0); try lra;
    try (apply Zfloor_mono; lra).
  - assert (0 <= Zfloor (- x))%Z by (apply Zfloor_lub; lra).
    subst y. rewrite Zfloor_IZR. lia.
  - assert (Zfloor (- y) <= Zfloor (- x))%Z by (apply Zfloor_mono; lra). lia.
  - assert (0 <= Zfloor (- x))%Z by (apply Zfloor_lub; lra).
    assert (0 <= Zfloor y)%Z by (apply Zfloor_lub; lra). lia.
Qed.

(** The shift in [trunc] is the floor of the magnitude. *)
Lemma shiftl_floor m e : Z.shiftl (Zpos m) e = Zfloor (IZR (Zpos m) * bpow e).
Proof.
  symmetry. destruct (Z_lt_le_dec e 0) as [He|He].
  - rewrite <- (Z.opp_involutive e) at 2. rewrite Z.shiftl_opp_r.
    rewrite Z.shiftr_div_pow2 by lia.
    set (P := (2 ^ (- e))%Z).
    assert (HP : (0 < P)%Z) by (apply Z.pow_pos_nonneg; lia).
    pose proof (Z_div_mod_eq_full (Zpos m) P) as Hdm.
    pose proof (Z.mod_pos_bound (Zpos m) P HP) as Hr.
    assert (Hb : bpow e = / IZR P).
    { unfold P. rewrite IZR_pow2 by lia. rewrite <- bpow_opp. f_equal. lia. }
    rewrite Hb. apply Zfloor_eq.
    assert (HPR : 0 < IZR P) by (apply IZR_lt; assumption).
    assert (E : IZR (Zpos m) = IZR P * IZR (Zpos m / P) + IZR (Zpos m mod P)).
    { rewrite <- mult_IZR, <- plus_IZR. f_equal. exact Hdm. }
    assert (Hr1 : 0 <= IZR (Zpos m mod P) < IZR P)
      by (split; [apply IZR_le|apply IZR_lt]; lia).
    rewrite E. split.
    + apply Rmult_le_reg_r with (IZR P); [assumption|].
      replace ((IZR P * IZR (Zpos m / P) + IZR (Zpos m mod P)) * / IZR P * IZR P)
        with (IZR P * IZR (Zpos m / P) + IZR (Zpos m mod P)) by (field; lra).
      lra.
    + apply Rmult_lt_reg_r with (IZR P); [assumption|].
      replace ((IZR P * IZR (Zpos m / P) + IZR (Zpos m mod P)) * / IZR P * IZR P)
        with (IZR P * IZR (Zpos m / P) + IZR (Zpos m mod P)) by (field; lra).
      lra.
  - rewrite Z.shiftl_mul_pow2 by lia.
    rewrite <- IZR_pow2, <- mult_IZR by lia. apply Zfloor_IZR.
Qed.

(** [trunc] truncates the real value toward zero. *)
Lemma trunc_Rtrunc W f :
  nice W f -> trunc f = Some (Rtrunc (B2R f)).
Proof.
  destruct f as [s|s| |s m e]; cbn [nice]; try contradiction.
  - intros _. cbn [trunc B2R]. unfold Rtrunc.
    destruct (Rcompare_spec 0 0); try lra. now rewrite (Zfloor_IZR 0).
  - intros _. cbn [trunc B2R]. f_equal. rewrite shiftl_floor.
    assert (0 < IZR (Zpos m) * bpow e).
    { apply Rmult_lt_0_compat; [apply IZR_lt; lia|apply bpow_gt_0]. }
    unfold Rtrunc. destruct s; cbn [cond_Zopp sgn].
    + destruct (Rcompare_spec (-1 * (IZR (Zpos m) * bpow e)) 0); try lra.
      f_equal. f_equal. ring.
    + destruct (Rcompare_spec (1 * (IZR (Zpos m) * bpow e)) 0); try lra;
        f_equal; ring.
Qed.

Lemma to_int_Rtrunc W f :
  nice W f ->
  to_int f = if in_int (Rtrunc (B2R f)) then Some (Rtrunc (B2R f)) else None.
Proof. intros H. unfold to_int. now rewrite (trunc_Rtrunc W f H). Qed.

Lemma B2R_two : B2R two = 2.
Proof.
  unfold two. cbn [B2R sgn]. rewrite <- (Z.opp_involutive (-51)), bpow_opp.
  change (- -51)%Z with 51%Z. rewrite (bpow_IZR 51) by lia.
  change (2 ^ 51)%Z with 2251799813685248%Z. lra.
Qed.

Lemma nice_two : nice 52 two.
Proof. unfold two. cbn [nice]. split; [cbn|]; lia. Qed.

Lemma rounds_0 r : rounds 0 r -> r = 0.
Proof. intros [[_ H]|[[H _]|[H _]]]; lra. Qed.

Lemma in_int_53 z : in_int z = true -> (Z.abs z < 2 ^ 53)%Z.
Proof.
  unfold in_int, INT_MIN, INT_MAX. rewrite andb_true_iff, !Z.leb_le.
  intros. change (2 ^ 53)%Z with 9007199254740992%Z. lia.
Qed.

Lemma in_int_bounds z : in_int z = true <-> (-2147483648 <= z <= 2147483647)%Z.
Proof. unfold in_int, INT_MIN, INT_MAX. rewrite andb_true_iff, !Z.leb_le. tauto. Qed.

Lemma of_int_nice z : in_int z = true -> nice 52 (of_int z).
Proof. intros H. apply of_int_correct. now apply in_int_53. Qed.

Lemma of_int_B2R z : in_int z = true -> B2R (of_int z) = IZR z.
Proof. intros H. apply of_int_correct. now apply in_int_53. Qed.

(** Halving an [int] is exact. *)
Lemma half_correct z :
  in_int z = true ->
  nice 158 (fdiv (of_int z) two) /\ B2R (fdiv (of_int z) two) = IZR z / 2.
Proof.
  intros Hz.
  destruct (SFdiv_rounds 52 52 (of_int z) two) as [A B]; try lia.
  - now apply of_int_nice.
  - exact nice_two.
  - rewrite B2R_two. lra.
  - split; [exact A|]. rewrite B2R_two, of_int_B2R in B by assumption.
    replace (IZR z / 2) with (IZR z * bpow (-1)) in *
      by (rewrite <- (Z.opp_involutive (-1)), bpow_opp; change (- -1)%Z with 1%Z;
          rewrite bpow_1; field).
    apply rounds_exact; [now apply in_int_53|exact B].
Qed.

(** ** The computation of [map_event] *)

(** The double of [map_event]: the centered offset is exact, and each of
    the four following operations rounds once. The exponents stay within
    532 of zero, so that no operation underflows or overflows. *)
Lemma scaled_correct off sw dw sres dres dmin :
  in_int off = true -> in_int sw = true -> in_int dw = true ->
  in_int sres = true -> in_int dres = true -> in_int dmin = true ->
  sres <> 0%Z ->
  nice 532 (scaled off sw dw sres dres dmin) /\
  scaled_to off sw dw sres dres dmin (B2R (scaled off sw dw sres dres dmin)).
Proof.
  intros Hoff Hsw Hdw Hsres Hdres Hdmin Nz. unfold scaled.
  destruct (half_correct sw Hsw) as [Nh Vh].
  destruct (half_correct dw Hdw) as [Nc Vc].
  (* the centered offset is exact *)
  destruct (SFsub_rounds 158 (of_int off) (fdiv (of_int sw) two)) as [N0 R0];
    [lia|apply (nice_weaken 52); [lia|now apply of_int_nice]|exact Nh|].
  rewrite of_int_B2R, Vh in R0 by assumption.
  assert (V0 : B2R (fsub (of_int off) (fdiv (of_int sw) two))
               = IZR off - IZR sw / 2).
  { replace (IZR off - IZR sw / 2) with (IZR (2 * off - sw) * bpow (-1)) in *.
    - apply rounds_exact; [|exact R0].
      apply in_int_bounds in Hoff, Hsw.
      change (2 ^ 53)%Z with 9007199254740992%Z. lia.
    - rewrite minus_IZR, mult_IZR.
      rewrite <- (Z.opp_involutive (-1)), bpow_opp. change (- -1)%Z with 1%Z.
      rewrite bpow_1. field. }
  (* the four rounded operations *)
  destruct (SFdiv_rounds 212 52 (fsub (of_int off) (fdiv (of_int sw) two))
              (of_int sres)) as [N1 R1];
    [lia|exact N0|now apply of_int_nice| |].
  { rewrite of_int_B2R by assumption. now apply not_0_IZR. }
  rewrite V0, of_int_B2R in R1 by assumption.
  destruct (SFmul_rounds 318 52 _ (of_int dres) ltac:(lia) N1
              (of_int_nice dres Hdres)) as [N2 R2].
  rewrite of_int_B2R in R2 by assumption.
  destruct (SFadd_rounds 424 _ (fdiv (of_int dw) two) ltac:(lia) N2) as [N3 R3];
    [apply (nice_weaken 158); [lia|exact Nc]|].
  rewrite Vc in R3.
  destruct (SFadd_rounds 478 _ (of_int dmin) ltac:(lia) N3) as [N4 R4];
    [apply (nice_weaken 52); [lia|now apply of_int_nice]|].
  rewrite of_int_B2R in R4 by assumption.
  split; [exact N4|]. eexists; eexists; eexists.
  split; [exact R1|]. split; [exact R2|]. split; [exact R3|exact R4].
Qed.

Lemma int_sub_Some a b c :
  int_sub a b = Some c -> c = (a - b)%Z /\ in_int c = true.
Proof.
  unfold int_sub. destruct (in_int (a - b)) eqn:E; [|discriminate].
  intros H. injection H as <-. now split.
Qed.

(** [map_value] in terms of [scaled]. *)
Lemma map_value_unfold src dst v :
  map_value src dst v =
  match int_sub v (minimum src), int_sub (maximum src) (minimum src),
        int_sub (maximum dst) (minimum dst) with
  | Some off, Some sw, Some dw =>
      match to_int (scaled off sw dw (resolution src) (resolution dst)
                           (minimum dst)) with
      | Some i => Some (max (minimum dst) (min (maximum dst) i))
      | None => None
      end
  | _, _, _ => None
  end.
Proof. reflexivity. Qed.

Lemma min_Zmin a b : min a b = Z.min a b.
Proof. unfold min. destruct (Z.ltb_spec a b); lia. Qed.

Lemma max_Zmax a b : max a b = Z.max a b.
Proof. unfold max. destruct (Z.gtb_spec a b); lia. Qed.

(** With a positive source resolution and a destination resolution that
    is not negative, the rounded chain is monotone in the offset. *)
Lemma scaled_to_mono off off' sw dw sres dres dmin x x' :
  (0 < sres)%Z -> (0 <= dres)%Z -> (off <= off')%Z ->
  scaled_to off sw dw sres dres dmin x ->
  scaled_to off' sw dw sres dres dmin x' ->
  x <= x'.
Proof.
  intros Hs Hd Ho [x1 [x2 [x3 [R1 [R2 [R3 R4]]]]]]
         [y1 [y2 [y3 [S1 [S2 [S3 S4]]]]]].
  apply IZR_lt in Hs. apply IZR_le in Hd, Ho.
  assert (H1 : x1 <= y1).
  { apply (rounds_mono _ _ _ _ R1 S1).
    apply Rmult_le_compat_r; [|lra].
    apply Rlt_le, Rinv_0_lt_compat, Hs. }
  assert (H2 : x2 <= y2).
  { apply (rounds_mono _ _ _ _ R2 S2). now apply Rmult_le_compat_r. }
  assert (H3 : x3 <= y3) by (apply (rounds_mono _ _ _ _ R3 S3); lra).
  apply (rounds_mono _ _ _ _ R4 S4). lra.
Qed.

Lemma Zfloor_half n : Zfloor (IZR n / 2) = (n / 2)%Z.
Proof.
  apply Zfloor_eq.
  pose proof (Z_div_mod_eq_full n 2) as E.
  pose proof (Z.mod_pos_bound n 2 ltac:(lia)) as Hr.
  assert (En : IZR n = 2 * IZR (n / 2) + IZR (n mod 2)).
  { rewrite <- mult_IZR, <- plus_IZR. f_equal. exact E. }
  assert (0 <= IZR (n mod 2) <= 1) by (split; apply IZR_le; lia).
  lra.
Qed.

Lemma Rtrunc_half n : Rtrunc (IZR n / 2) = Z.quot n 2.
Proof.
  unfold Rtrunc. destruct (Rcompare_spec (IZR n / 2) 0) as [E|L|G].
  - assert (IZR n = 0) by lra. apply eq_IZR in H. subst n.
    rewrite Zfloor_half. reflexivity.
  - assert (Hn : (n < 0)%Z) by (apply lt_IZR; lra).
    replace (- (IZR n / 2)) with (IZR (- n) / 2) by (rewrite opp_IZR; field).
    rewrite Zfloor_half.
    rewrite <- (Z.opp_involutive n) at 2. rewrite Z.quot_opp_l by lia.
    rewrite Z.quot_div_nonneg by lia. reflexivity.
  - assert (Hn : (0 < n)%Z) by (apply lt_IZR; lra).
    rewrite Zfloor_half. rewrite Z.quot_div_nonneg by lia. reflexivity.
Qed.

(** ** Bounds through the roundings *)

Lemma rounds_IZR n : (Z.abs n < 2 ^ 53)%Z -> rounds (IZR n) (IZR n).
Proof.
  intros Hn. destruct (of_int_correct n Hn) as [N V].
  rewrite <- V. exact (rounds_nice 52 _ N).
Qed.

Lemma rounds_between x r n :
  (0 <= n < 2 ^ 53)%Z -> rounds x r ->
  - IZR n <= x <= IZR n -> - IZR n <= r <= IZR n.
Proof.
  intros Hn Hr [Hl Hu]. split.
  - rewrite <- opp_IZR.
    apply (rounds_mono (IZR (- n)) x); [apply rounds_IZR; lia|assumption|].
    rewrite opp_IZR. assumption.
  - apply (rounds_mono x (IZR n)); [assumption|apply rounds_IZR; lia|assumption].
Qed.

Lemma Rtrunc_IZR k : Rtrunc (IZR k) = k.
Proof.
  unfold Rtrunc. destruct (Rcompare_spec (IZR k) 0).
  - apply Zfloor_IZR.
  - rewrite <- opp_IZR, Zfloor_IZR. lia.
  - apply Zfloor_IZR.
Qed.

Lemma Rtrunc_between x n :
  - IZR n <= x <= IZR n -> (- n <= Rtrunc x <= n)%Z.
Proof.
  intros [Hl Hu]. rewrite <- opp_IZR in Hl.
  apply Rtrunc_mono in Hl, Hu. rewrite !Rtrunc_IZR in *. lia.
Qed.

(** The magnitude of the scaled value, for inputs of moderate size. *)
Lemma scaled_to_bound off sw dw sres dres dmin x :
  (Z.abs off <= 2097152)%Z -> (Z.abs sw <= 2097152)%Z ->
  (Z.abs dw <= 2097152)%Z -> (Z.abs dmin <= 1048576)%Z ->
  sres <> 0%Z -> (Z.abs dres <= 256)%Z ->
  scaled_to off sw dw sres dres dmin x ->
  - IZR 1075838976 <= x <= IZR 1075838976.
Proof.
  intros Hoff Hsw Hdw Hdmin Hs Hd [x1 [x2 [x3 [R1 [R2 [R3 R4]]]]]].
  assert (Boff : -2097152 <= IZR off <= 2097152)
    by (split; apply IZR_le; lia).
  assert (Bsw : -2097152 <= IZR sw <= 2097152)
    by (split; apply IZR_le; lia).
  assert (Bdw : -2097152 <= IZR dw <= 2097152)
    by (split; apply IZR_le; lia).
  assert (Bdmin : -1048576 <= IZR dmin <= 1048576)
    by (split; apply IZR_le; lia).
  assert (Bd : -256 <= IZR dres <= 256) by (split; apply IZR_le; lia).
  assert (B1 : - IZR 4194304 <= x1 <= IZR 4194304).
  { apply (rounds_between _ _ 4194304 ltac:(cbn; lia) R1).
    set (x0 := IZR off - IZR sw / 2).
    assert (B0 : -4194304 <= x0 <= 4194304) by (unfold x0; lra).
    destruct (Z_lt_le_dec 0 sres) as [Hp|Hn].
    - assert (1 <= IZR sres) by (apply IZR_le; lia).
      assert (Hi : 0 < / IZR sres <= 1).
      { split; [apply Rinv_0_lt_compat; lra|].
        rewrite <- Rinv_1. apply Rinv_le_contravar; lra. }
      unfold Rdiv. nra.
    - assert (IZR sres <= -1) by (apply IZR_le; lia).
      assert (Hi : 0 < / - IZR sres <= 1).
      { split; [apply Rinv_0_lt_compat; lra|].
        rewrite <- Rinv_1. apply Rinv_le_contravar; lra. }
      replace (x0 / IZR sres) with (- x0 * / - IZR sres) by (field; lra).
      nra. }
  assert (B2 : - IZR 1073741824 <= x2 <= IZR 1073741824).
  { apply (rounds_between _ _ 1073741824 ltac:(cbn; lia) R2). nra. }
  assert (B3 : - IZR 1074790400 <= x3 <= IZR 1074790400).
  { apply (rounds_between _ _ 1074790400 ltac:(cbn; lia) R3). lra. }
  apply (rounds_between _ _ 1075838976 ltac:(cbn; lia) R4). lra.
Qed.

Local Close Scope R_scope.

(** * The coordinate transform, for all ranges *)

(** C7, as the specification states it, fails. On a pad of odd width the
    midpoint 511.5 is not a coordinate; both neighbours of it, 511 and
    512, land 5.5 units away from the midpoint 2047.5 of a target with
    ten times the resolution. *)
Lemma odd_width_midpoint_is_off :
  resolution Sample.coarse_pad <> 0 /\
  map_value Sample.coarse_pad Sample.fine_target 511 = Some 2042 /\
  ~ near_midpoint Sample.fine_target 2042 /\
  map_value Sample.coarse_pad Sample.fine_target 512 = Some 2052 /\
  ~ near_midpoint Sample.fine_target 2052.
Proof.
  split; [discriminate|].
  split; [vm_compute; reflexivity|].
  split; [unfold near_midpoint; cbn; lia|].
  split; [vm_compute; reflexivity|].
  unfold near_midpoint; cbn; lia.
Qed.

(** The clamp also moves the result off the midpoint when the
    destination range is inverted: from 0..100 onto the range with
    minimum 100 and maximum 0, the midpoint 50 maps to 100. *)
Lemma inverted_target_midpoint_is_off :
  map_value Sample.pad (mk_absinfo 100 0 5) 50 = Some 100 /\
  ~ near_midpoint (mk_absinfo 100 0 5) 100.
Proof.
  split; [vm_compute; reflexivity|]. unfold near_midpoint; cbn; lia.
Qed.

(** C7, as the code has it. When the source range has an even width
    [2 * k], so that its midpoint [minimum + k] is a coordinate, when
    neither width overflows [int], the source resolution is not zero
    and the destination range is not empty, the midpoint of the source
    maps to the midpoint of the destination truncated toward zero, which
    is within one unit (in fact half a unit) of the exact midpoint. *)
Theorem map_value_midpoint (src dst : input_absinfo) (k : Z) :
  int_typed src -> int_typed dst ->
  resolution src <> 0 ->
  in_int (maximum src - minimum src) = true ->
  maximum src - minimum src = 2 * k ->
  in_int (maximum dst - minimum dst) = true ->
  minimum dst <= maximum dst ->
  map_value src dst (minimum src + k)
    = Some (Z.quot (minimum dst + maximum dst) 2) /\
  near_midpoint dst (Z.quot (minimum dst + maximum dst) 2).
Proof.
  intros [Hsm [HsM Hsr]] [Hdm [HdM Hdr]] Nz Hsw Hk Hdw Hle.
  assert (Hq : 2 * Z.quot (minimum dst + maximum dst) 2
               + Z.rem (minimum dst + maximum dst) 2
               = minimum dst + maximum dst)
    by (symmetry; apply Z.quot_rem'; lia).
  assert (Hrem : Z.abs (Z.rem (minimum dst + maximum dst) 2) < 2).
  { pose proof (Z.rem_bound_abs (minimum dst + maximum dst) 2 ltac:(lia)). lia. }
  assert (Hsgn : 0 <= Z.rem (minimum dst + maximum dst) 2
                      * (minimum dst + maximum dst)).
  { apply Z.rem_sign_mul. lia. }
  assert (Hin : minimum dst <= Z.quot (minimum dst + maximum dst) 2
                <= maximum dst) by nia.
  split; [|unfold near_midpoint; lia].
  rewrite map_value_unfold. unfold int_sub.
  replace (minimum src + k - minimum src) with k by lia.
  assert (Hik : in_int k = true).
  { apply in_int_bounds. apply in_int_bounds in Hsw. lia. }
  rewrite Hik, Hsw, Hdw. rewrite Hk.
  destruct (scaled_correct k (2 * k) (maximum dst - minimum dst)
              (resolution src) (resolution dst) (minimum dst))
    as [N [x1 [x2 [x3 [R1 [R2 [R3 R4]]]]]]]; try assumption.
  { now rewrite <- Hk. }
  rewrite (to_int_Rtrunc _ _ N).
  (* the offset from the source midpoint is exactly 0, and stays 0 *)
  replace ((IZR k - IZR (2 * k) / 2) / IZR (resolution src))%R with 0%R in R1
    by (rewrite mult_IZR; field; now apply not_0_IZR).
  apply rounds_0 in R1. subst x1. rewrite Rmult_0_l in R2.
  apply rounds_0 in R2. subst x2. rewrite Rplus_0_l in R3.
  (* the two additions are exact: half-integers below 2^53 *)
  assert (Hb1 : bpow (-1) = (/ 2)%R).
  { rewrite <- (Z.opp_involutive (-1)), bpow_opp. change (- -1) with 1.
    now rewrite bpow_1. }
  apply in_int_bounds in Hdw, Hdm, HdM.
  assert (V3 : x3 = (IZR (maximum dst - minimum dst) / 2)%R).
  { replace (IZR (maximum dst - minimum dst) / 2)%R
      with (IZR (maximum dst - minimum dst) * bpow (-1))%R in *
      by (rewrite Hb1; reflexivity).
    apply rounds_exact; [|exact R3].
    change (2 ^ 53) with 9007199254740992. lia. }
  subst x3.
  replace (IZR (maximum dst - minimum dst) / 2 + IZR (minimum dst))%R
    with (IZR (minimum dst + maximum dst) * bpow (-1))%R in R4
    by (rewrite Hb1, minus_IZR, plus_IZR; field).
  apply rounds_exact in R4; [|change (2 ^ 53) with 9007199254740992; lia].
  rewrite R4. rewrite Hb1.
  change (IZR (minimum dst + maximum dst) * / 2)%R
    with (IZR (minimum dst + maximum dst) / 2)%R.
  rewrite Rtrunc_half.
  replace (in_int (Z.quot (minimum dst + maximum dst) 2)) with true
    by (symmetry; apply in_int_bounds; lia).
  rewrite max_Zmax, min_Zmin. f_equal. lia.
Qed.

Lemma map_value_midpoint_witness :
  map_value Sample.pad Sample.target (minimum Sample.pad + 50)
    = Some (Z.quot (minimum Sample.target + maximum Sample.target) 2) /\
  near_midpoint Sample.target
    (Z.quot (minimum Sample.target + maximum Sample.target) 2).
Proof.
  apply (map_value_midpoint Sample.pad Sample.target 50).
  - repeat split; reflexivity.
  - repeat split; reflexivity.
  - cbn; lia.
  - reflexivity.
  - reflexivity.
  - reflexivity.
  - cbn; lia.
Defined.

(** X18. The transform is defined on ranges of realistic size:
    coordinates within 2^20 of zero, a destination resolution of at most
    256 units and any source resolution but zero. *)
Theorem map_value_defined (src dst : input_absinfo) (v : Z) :
  Z.abs (minimum src) <= 1048576 -> Z.abs (maximum src) <= 1048576 ->
  Z.abs (minimum dst) <= 1048576 -> Z.abs (maximum dst) <= 1048576 ->
  Z.abs v <= 1048576 ->
  resolution src <> 0 -> in_int (resolution src) = true ->
  Z.abs (resolution dst) <= 256 ->
  exists r, map_value src dst v = Some r.
Proof.
  intros Hsm HsM Hdm HdM Hv Nz Hsr Hdr.
  rewrite map_value_unfold. unfold int_sub.
  assert (I1 : in_int (v - minimum src) = true) by (apply in_int_bounds; lia).
  assert (I2 : in_int (maximum src - minimum src) = true)
    by (apply in_int_bounds; lia).
  assert (I3 : in_int (maximum dst - minimum dst) = true)
    by (apply in_int_bounds; lia).
  rewrite I1, I2, I3.
  destruct (scaled_correct (v - minimum src) (maximum src - minimum src)
              (maximum dst - minimum dst) (resolution src) (resolution dst)
              (minimum dst)) as [N S]; try assumption;
    try (apply in_int_bounds; lia).
  rewrite (to_int_Rtrunc _ _ N).
  apply scaled_to_bound in S; try lia.
  apply Rtrunc_between in S.
  replace (in_int (Rtrunc (B2R (scaled (v - minimum src)
             (maximum src - minimum src) (maximum dst - minimum dst)
             (resolution src) (resolution dst) (minimum dst))))) with true
    by (symmetry; apply in_int_bounds; lia).
  eexists. reflexivity.
Qed.

(** C8, as the specification states it (for all [v1 <= v2]), fails.
    From the range -1..99 at resolution 10 onto 0..50 at resolution 5,
    the value 200 maps to 50; for the largest [int] the subtraction
    [value - minimum] overflows, and the transform has no defined result
    that could be at least 50. *)
Lemma overflowing_value_has_no_image :
  int_typed (mk_absinfo (-1) 99 10) /\ int_typed Sample.target /\
  0 < resolution (mk_absinfo (-1) 99 10) /\ 0 < resolution Sample.target /\
  in_int 200 = true /\ in_int INT_MAX = true /\ 200 <= INT_MAX /\
  map_value (mk_absinfo (-1) 99 10) Sample.target 200 = Some 50 /\
  map_value (mk_absinfo (-1) 99 10) Sample.target INT_MAX = None /\
  ~ (exists r1 r2,
       map_value (mk_absinfo (-1) 99 10) Sample.target 200 = Some r1 /\
       map_value (mk_absinfo (-1) 99 10) Sample.target INT_MAX = Some r2 /\
       r1 <= r2).
Proof.
  assert (H2 : map_value (mk_absinfo (-1) 99 10) Sample.target INT_MAX = None)
    by (vm_compute; reflexivity).
  split; [repeat split; reflexivity|].
  split; [repeat split; reflexivity|].
  split; [cbn; lia|]. split; [cbn; lia|].
  split; [reflexivity|]. split; [reflexivity|].
  split; [unfold INT_MAX; lia|].
  split; [vm_compute; reflexivity|].
  split; [exact H2|].
  intros [r1 [r2 [_ [H _]]]]. rewrite H2 in H. discriminate.
Qed.

(** C8, as the code has it. For ranges of [int]s with positive
    resolutions, the transform is non-decreasing wherever it is defined:
    of two values in order, each with a defined image (no [int] overflow
    on the way), the images are in the same order. *)
Theorem map_value_monotone (src dst : input_absinfo) (v1 v2 r1 r2 : Z) :
  int_typed src -> int_typed dst ->
  0 < resolution src -> 0 < resolution dst ->
  v1 <= v2 ->
  map_value src dst v1 = Some r1 ->
  map_value src dst v2 = Some r2 ->
  r1 <= r2.
Proof.
  intros [_ [_ Hsr]] [Hdm [_ Hdr]] Hs Hd Hv. rewrite !map_value_unfold.
  destruct (int_sub v1 (minimum src)) as [o1|] eqn:E1; [|discriminate].
  destruct (int_sub v2 (minimum src)) as [o2|] eqn:E2; [|discriminate].
  destruct (int_sub (maximum src) (minimum src)) as [sw|] eqn:E3; [|discriminate].
  destruct (int_sub (maximum dst) (minimum dst)) as [dw|] eqn:E4; [|discriminate].
  apply int_sub_Some in E1, E2, E3, E4.
  destruct E1 as [-> I1], E2 as [-> I2], E3 as [_ I3], E4 as [_ I4].
  destruct (scaled_correct (v1 - minimum src) sw dw (resolution src)
              (resolution dst) (minimum dst)) as [N1 S1]; try assumption; try lia.
  destruct (scaled_correct (v2 - minimum src) sw dw (resolution src)
              (resolution dst) (minimum dst)) as [N2 S2]; try assumption; try lia.
  rewrite (to_int_Rtrunc _ _ N1), (to_int_Rtrunc _ _ N2).
  destruct (in_int (Rtrunc (B2R (scaled (v1 - minimum src) sw dw _ _ _))));
    [|discriminate].
  destruct (in_int (Rtrunc (B2R (scaled (v2 - minimum src) sw dw _ _ _))));
    [|discriminate].
  intros H1 H2. injection H1 as <-. injection H2 as <-.
  assert (Hx : (B2R (scaled (v1 - minimum src) sw dw (resolution src)
                       (resolution dst) (minimum dst))
                <= B2R (scaled (v2 - minimum src) sw dw (resolution src)
                       (resolution dst) (minimum dst)))%R).
  { apply (scaled_to_mono (v1 - minimum src) (v2 - minimum src) sw dw
             (resolution src) (resolution dst) (minimum dst));
      [lia|lia|lia|exact S1|exact S2]. }
  apply Rtrunc_mono in Hx. rewrite !max_Zmax, !min_Zmin. lia.
Qed.

Lemma map_value_monotone_witness :
  map_value Sample.coarse_pad Sample.fine_target 511 = Some 2042 /\
  map_value Sample.coarse_pad Sample.fine_target 512 = Some 2052 /\
  2042 <= 2052.
Proof.
  split; [vm_compute; reflexivity|].
  split; [vm_compute; reflexivity|].
  apply (map_value_monotone Sample.coarse_pad Sample.fine_target 511 512).
  - repeat split; reflexivity.
  - repeat split; reflexivity.
  - cbn; lia.
  - cbn; lia.
  - lia.
  - vm_compute; reflexivity.
  - vm_compute; reflexivity.
Defined.

(** * Further properties of the code *)

(** ** What the loop reads and what it plays *)

Lemma map_value_cast_value src dst v :
  map_value src dst v
  = option_map (fun i => max (minimum dst) (min (maximum dst) i))
               (cast_value src dst v).
Proof.
  unfold map_value, cast_value.
  destruct (int_sub v (minimum src)); [|reflexivity].
  destruct (int_sub (maximum src) (minimum src)); [|reflexivity].
  destruct (int_sub (maximum dst) (minimum dst)); [|reflexivity].
  cbv zeta. destruct (to_int _); reflexivity.
Qed.

Lemma handle_event_forwarded source dest event w :
  handle_event source dest event w =
  match forwarded source dest event with
  | Some e => Returns (mk_world (polls w) (reads w)
                         (out w ++ narrated source dest event ++ [Play e]))
  | None => Undefined
  end.
Proof.
  unfold handle_event, forwarded, narrated, pass_event, map_event.
  destruct (type event =? EV_ABS); cbn [negb andb]; [|reflexivity].
  destruct (positional (code event)); [|reflexivity].
  destruct (source (code event)) as [src|]; [|reflexivity].
  rewrite map_value_cast_value.
  destruct (cast_value src (dest (code event)) (value event)) as [i|];
    [|reflexivity].
  cbn. unfold emit. cbn [polls reads out]. rewrite <- app_assoc. reflexivity.
Qed.

Lemma relay_app source dest rs1 rs2 :
  relay source dest (rs1 ++ rs2) = relay source dest rs1 ++ relay source dest rs2.
Proof. unfold relay. apply flat_map_app. Qed.

Lemma narrated_relaying source dest event :
  Forall relaying (narrated source dest event).
Proof.
  unfold narrated. destruct (_ && _); [|constructor].
  destruct (source (code event)) as [src|]; [|constructor].
  destruct (cast_value _ _ _); repeat constructor.
Qed.

Lemma relay_relaying source dest rs : Forall relaying (relay source dest rs).
Proof.
  induction rs as [|r rs IH]; [constructor|].
  cbn [relay flat_map]. apply Forall_app. split; [|exact IH].
  destruct (rc r =? _); [|constructor].
  destruct (forwarded source dest (ev r)); [|constructor].
  apply Forall_app. split; [apply narrated_relaying|repeat constructor].
Qed.

Lemma drain_trace source dest rs : forall ps log o w',
  drain source dest rs ps log = Returns (o, w') ->
  polls w' = ps /\
  exists consumed err,
    rs = consumed ++ reads w' /\
    out w' = log ++ relay source dest consumed ++ err /\
    ((o = None /\ err = []) \/ (o = Some 1 /\ exists msg, err = [Stderr msg])).
Proof.
  induction rs as [|r rs IH]; intros ps log o w'; cbn [drain].
  - intros H. injection H as <- <-. split; [reflexivity|].
    exists [], []. cbn. rewrite app_nil_r. auto.
  - destruct (rc r =? LIBEVDEV_READ_STATUS_SYNC) eqn:Es.
    { intros H. injection H as <- <-. split; [reflexivity|].
      exists [r], [Stderr "error: cannot keep up"]. cbn.
      apply Z.eqb_eq in Es. rewrite Es. cbn. split; [reflexivity|].
      split; [reflexivity|]. right. split; [reflexivity|]. eauto. }
    destruct (negb (rc r =? - EAGAIN) && (rc r <? 0)) eqn:Ee.
    { intros H. injection H as <- <-. split; [reflexivity|].
      exists [r], [Stderr "error: strerror"]. cbn.
      apply andb_true_iff in Ee. destruct Ee as [_ Ee]. apply Z.ltb_lt in Ee.
      destruct (Z.eqb_spec (rc r) LIBEVDEV_READ_STATUS_SUCCESS) as [E0|_];
        [unfold LIBEVDEV_READ_STATUS_SUCCESS in E0; lia|].
      cbn. split; [reflexivity|]. split; [reflexivity|].
      right. split; [reflexivity|]. eauto. }
    destruct (rc r =? LIBEVDEV_READ_STATUS_SUCCESS) eqn:E0.
    + rewrite handle_event_forwarded.
      destruct (forwarded source dest (ev r)) as [e|] eqn:Ef; cbn [bind];
        [|discriminate].
      assert (En : negb (rc r =? - EAGAIN) = true).
      { apply Z.eqb_eq in E0. rewrite E0. reflexivity. }
      rewrite En. cbn [polls reads out]. intros H.
      destruct (IH _ _ _ _ H) as [Hp [c [err [Hc [Ho Hs]]]]].
      split; [exact Hp|]. exists (r :: c), err.
      split; [cbn; now rewrite <- Hc|].
      split; [|exact Hs].
      rewrite Ho. cbn [relay flat_map]. rewrite E0, Ef.
      rewrite <- !app_assoc. reflexivity.
    + cbn [bind]. destruct (negb (rc r =? - EAGAIN)) eqn:En.
      * cbn [out]. intros H.
        destruct (IH _ _ _ _ H) as [Hp [c [err [Hc [Ho Hs]]]]].
        split; [exact Hp|]. exists (r :: c), err.
        split; [cbn; now rewrite <- Hc|].
        split; [|exact Hs].
        rewrite Ho. cbn [relay flat_map]. rewrite E0. reflexivity.
      * intros H. injection H as <- <-. split; [reflexivity|].
        exists [r], []. cbn. rewrite E0. cbn. rewrite app_nil_r. auto.
Qed.

Lemma mainloop_from_trace source dest ps : forall rs log st w',
  mainloop_from source dest ps rs log = Returns (st, w') ->
  exists woken consumed err,
    ps = woken ++ polls w' /\
    rs = consumed ++ reads w' /\
    out w' = log ++ relay source dest consumed ++ err /\
    ((st = 0 /\ err = []) \/ (st = 1 /\ exists msg, err = [Stderr msg])).
Proof.
  induction ps as [|p ps IH]; intros rs log st w'; cbn [mainloop_from];
    [discriminate|].
  destruct (poll_ret p =? 0).
  { intros H. injection H as <- <-. exists [p], [], []. cbn.
    rewrite app_nil_r. repeat split; auto. }
  destruct (negb (revents_sig p =? 0)).
  { intros H. injection H as <- <-. exists [p], [], []. cbn.
    rewrite app_nil_r. repeat split; auto. }
  destruct (drain source dest rs ps log) as [[o w1]| |] eqn:Ed; cbn [bind];
    try discriminate.
  destruct (drain_trace _ _ _ _ _ _ _ Ed) as [Hp [c [err [Hc [Ho Hs]]]]].
  cbn [fst snd]. destruct o as [status|].
  - intros H. injection H as <- <-. exists [p], c, err.
    split; [cbn; now rewrite Hp|]. split; [exact Hc|]. split; [exact Ho|].
    destruct Hs as [[Hn _]|[Hs He]]; [discriminate|].
    injection Hs as ->. right. auto.
  - destruct Hs as [[_ ->]|[Hs _]]; [|discriminate].
    rewrite app_nil_r in Ho. intros H.
    destruct (IH _ _ _ _ H) as [wk [c2 [err2 [Hw [Hc2 [Ho2 Hs2]]]]]].
    exists (p :: wk), (c ++ c2), err2.
    split; [cbn; now rewrite <- Hw|].
    split; [rewrite <- app_assoc, <- Hc2; exact Hc|].
    split; [|exact Hs2].
    rewrite Ho2, Ho, relay_app, <- !app_assoc. reflexivity.
Qed.

(** ** Statuses, order and termination of the loop *)

Lemma plays_app l1 l2 : plays (l1 ++ l2) = plays l1 ++ plays l2.
Proof. unfold plays. apply flat_map_app. Qed.

Lemma plays_narrated source dest event :
  plays (narrated source dest event) = [].
Proof.
  unfold narrated. destruct (_ && _); [|reflexivity].
  destruct (source (code event)) as [src|]; [|reflexivity].
  destruct (cast_value _ _ _); reflexivity.
Qed.

Lemma plays_relay source dest rs :
  plays (relay source dest rs) = replay source dest rs.
Proof.
  induction rs as [|r rs IH]; [reflexivity|].
  cbn [relay replay flat_map]. rewrite plays_app. fold (relay source dest rs).
  fold (replay source dest rs). rewrite IH. f_equal.
  destruct (rc r =? _); [|reflexivity].
  destruct (forwarded source dest (ev r)); [|reflexivity].
  rewrite plays_app, plays_narrated. reflexivity.
Qed.

(** X1. A returning [mainloop] adds to the trace a run of relaying
    actions (events played and the mapping lines on stdout) and then,
    exactly when its status is 1, one line on stderr; its status is 0 or
    1, and it never grabs or ungrabs. *)
Theorem mainloop_status_and_diagnostic (source : libevdev) (dest : evemu_device)
    (w w' : world) (st : Z) :
  mainloop source dest w = Returns (st, w') ->
  exists log err,
    out w' = out w ++ log ++ err /\
    Forall relaying log /\
    ((st = 0 /\ err = []) \/ (st = 1 /\ exists msg, err = [Stderr msg])).
Proof.
  intros H. apply mainloop_from_trace in H.
  destruct H as [_ [c [err [_ [_ [Ho Hs]]]]]].
  exists (relay source dest c), err.
  split; [exact Ho|]. split; [apply relay_relaying|exact Hs].
Qed.

Lemma mainloop_status_and_diagnostic_witness :
  exists log err,
    [Play Scenario.key; Stdout "0: mapping 50 to 25";
     Play (set_value Sample.touch 25); Stderr "error: cannot keep up"]%string
      = out Scenario.overrun ++ log ++ err /\
    Forall relaying log /\
    ((1 = 0 /\ err = []) \/ (1 = 1 /\ exists msg, err = [Stderr msg])).
Proof.
  apply (mainloop_status_and_diagnostic Scenario.source Scenario.dest
           Scenario.overrun
           (mk_world [Scenario.interrupt] [Scenario.ok Scenario.far_touch]
              [Play Scenario.key; Stdout "0: mapping 50 to 25";
               Play (set_value Sample.touch 25);
               Stderr "error: cannot keep up"]%string) 1).
  vm_compute. reflexivity.
Defined.

(** X2. The reads that a returning [mainloop] consumed are a prefix of
    the read script, and the events it played are those of the
    successful reads among them, each once and in the order read. *)
Theorem mainloop_forwards_in_order (source : libevdev) (dest : evemu_device)
    (w w' : world) (st : Z) :
  mainloop source dest w = Returns (st, w') ->
  exists consumed,
    reads w = consumed ++ reads w' /\
    plays (out w') = plays (out w) ++ replay source dest consumed.
Proof.
  intros H. apply mainloop_from_trace in H.
  destruct H as [_ [c [err [_ [Hc [Ho Hs]]]]]].
  exists c. split; [exact Hc|].
  rewrite Ho, !plays_app, plays_relay.
  destruct Hs as [[_ ->]|[_ [msg ->]]]; cbn; now rewrite app_nil_r.
Qed.

Lemma mainloop_forwards_in_order_witness :
  exists consumed,
    reads Scenario.bursts = consumed ++ [] /\
    plays [Play Scenario.key; Stdout "0: mapping 50 to 25";
           Play (set_value Sample.touch 25); Stdout "0: mapping 200 to 100";
           Play (set_value Scenario.far_touch 50)]%string
    = plays (out Scenario.bursts) ++ replay Scenario.source Scenario.dest consumed.
Proof.
  apply (mainloop_forwards_in_order Scenario.source Scenario.dest Scenario.bursts
           (mk_world [] []
              [Play Scenario.key; Stdout "0: mapping 50 to 25";
               Play (set_value Sample.touch 25);
               Stdout "0: mapping 200 to 100";
               Play (set_value Scenario.far_touch 50)]%string) 0).
  vm_compute. reflexivity.
Defined.

Lemma drain_batch source dest pre : forall rs ps log,
  Forall (delivered source dest) pre ->
  drain source dest (pre ++ rs) ps log
  = drain source dest rs ps (log ++ relay source dest pre).
Proof.
  induction pre as [|r pre IH]; intros rs ps log Hd.
  - cbn. now rewrite app_nil_r.
  - inversion Hd as [|? ? [H0 Hf] Hd']; subst.
    cbn [app drain]. rewrite H0. cbn [Z.eqb LIBEVDEV_READ_STATUS_SUCCESS
      LIBEVDEV_READ_STATUS_SYNC].
    change (LIBEVDEV_READ_STATUS_SUCCESS =? LIBEVDEV_READ_STATUS_SYNC) with false.
    change (negb (LIBEVDEV_READ_STATUS_SUCCESS =? - EAGAIN)
            && (LIBEVDEV_READ_STATUS_SUCCESS <? 0)) with false.
    change (LIBEVDEV_READ_STATUS_SUCCESS =? LIBEVDEV_READ_STATUS_SUCCESS) with true.
    change (negb (LIBEVDEV_READ_STATUS_SUCCESS =? - EAGAIN)) with true.
    cbn iota. rewrite handle_event_forwarded.
    destruct (forwarded source dest (ev r)) as [e|] eqn:Ef; [|congruence].
    cbn [bind polls reads out]. rewrite IH by assumption.
    cbn [relay flat_map]. rewrite H0.
    change (LIBEVDEV_READ_STATUS_SUCCESS =? LIBEVDEV_READ_STATUS_SUCCESS) with true.
    cbn iota. rewrite Ef.
    rewrite <- !app_assoc. reflexivity.
Qed.

(** X3. When, in the first wake, a run of delivered events is followed
    by a lost sync or by a read error other than [-EAGAIN], [mainloop]
    relays the run (each event played, after its mapping line if it has
    one), prints one error line, returns 1 and reads nothing after the
    failed read. *)
Theorem fatal_read_stops_loop (source : libevdev) (dest : evemu_device)
    (w : world) (p : poll_result) (ps : list poll_result)
    (pre rest : list read_result) (r : read_result) :
  polls w = p :: ps -> stops p = false ->
  reads w = pre ++ r :: rest ->
  Forall (delivered source dest) pre ->
  fatal r ->
  exists msg,
    mainloop source dest w
    = Returns (1, mk_world ps rest
                    (out w ++ relay source dest pre ++ [Stderr msg])).
Proof.
  intros Hp Hs Hr Hd Hf. unfold mainloop. rewrite Hp, Hr.
  cbn [mainloop_from]. unfold stops in Hs. apply orb_false_iff in Hs.
  destruct Hs as [Hs1 Hs2]. rewrite Hs1, Hs2.
  rewrite drain_batch by assumption. cbn [drain].
  destruct Hf as [Hf|[Hf1 Hf2]].
  - rewrite Hf. cbn. eexists. rewrite <- app_assoc. reflexivity.
  - destruct (Z.eqb_spec (rc r) LIBEVDEV_READ_STATUS_SYNC) as [E|_].
    + cbn. eexists. rewrite <- app_assoc. reflexivity.
    + apply Z.eqb_neq in Hf2. apply Z.ltb_lt in Hf1. rewrite Hf2, Hf1.
      cbn. eexists. rewrite <- app_assoc. reflexivity.
Qed.

Lemma fatal_read_stops_loop_witness :
  exists msg,
    mainloop Scenario.source Scenario.dest Scenario.overrun
    = Returns (1, mk_world [Scenario.interrupt] [Scenario.ok Scenario.far_touch]
                    (out Scenario.overrun
                     ++ relay Scenario.source Scenario.dest
                          [Scenario.ok Scenario.key; Scenario.ok Sample.touch]
                     ++ [Stderr msg])).
Proof.
  apply (fatal_read_stops_loop Scenario.source Scenario.dest Scenario.overrun Scenario.wake [Scenario.interrupt]
           [Scenario.ok Scenario.key; Scenario.ok Sample.touch] [Scenario.ok Scenario.far_touch] Scenario.sync).
  - reflexivity.
  - reflexivity.
  - reflexivity.
  - repeat constructor; vm_compute; discriminate.
  - left. reflexivity.
Defined.

(** X4. A wake drains the device up to the first [-EAGAIN]: the events
    before it are relayed (played, each after its mapping line if it has
    one), those after it wait for the next [poll]. *)
Theorem wake_drains_to_would_block (source : libevdev) (dest : evemu_device)
    (p : poll_result) (ps : list poll_result)
    (pre rest : list read_result) (r : read_result) (log : list action) :
  stops p = false ->
  Forall (delivered source dest) pre ->
  rc r = - EAGAIN ->
  mainloop source dest (mk_world (p :: ps) (pre ++ r :: rest) log)
  = mainloop source dest
      (mk_world ps rest (log ++ relay source dest pre)).
Proof.
  intros Hs Hd Hr. unfold mainloop. cbn [polls reads out mainloop_from].
  unfold stops in Hs. apply orb_false_iff in Hs.
  destruct Hs as [Hs1 Hs2]. rewrite Hs1, Hs2.
  rewrite drain_batch by assumption. cbn [drain]. rewrite Hr.
  reflexivity.
Qed.

Lemma wake_drains_to_would_block_witness :
  mainloop Scenario.source Scenario.dest
    (mk_world (Scenario.wake :: [Scenario.wake; Scenario.interrupt])
              ([Scenario.ok Scenario.key; Scenario.ok Sample.touch] ++ Scenario.would_block :: [Scenario.ok Scenario.far_touch]) [])
  = mainloop Scenario.source Scenario.dest
      (mk_world [Scenario.wake; Scenario.interrupt] [Scenario.ok Scenario.far_touch]
                ([] ++ relay Scenario.source Scenario.dest
                                 [Scenario.ok Scenario.key; Scenario.ok Sample.touch])).
Proof.
  apply (wake_drains_to_would_block Scenario.source Scenario.dest Scenario.wake [Scenario.wake; Scenario.interrupt]
           [Scenario.ok Scenario.key; Scenario.ok Sample.touch] [Scenario.ok Scenario.far_touch] Scenario.would_block []).
  - reflexivity.
  - repeat constructor; vm_compute; discriminate.
  - reflexivity.
Defined.

Lemma drain_returns source dest rs : forall ps log,
  Forall (dispatchable source dest) rs ->
  exists o w', drain source dest rs ps log = Returns (o, w').
Proof.
  induction rs as [|r rs IH]; intros ps log Hd; cbn [drain].
  - eauto.
  - inversion Hd as [|? ? Hr Hd']; subst.
    destruct (rc r =? LIBEVDEV_READ_STATUS_SYNC); [eauto|].
    destruct (negb (rc r =? - EAGAIN) && (rc r <? 0)); [eauto|].
    destruct (rc r =? LIBEVDEV_READ_STATUS_SUCCESS) eqn:E0.
    + rewrite handle_event_forwarded. apply Z.eqb_eq in E0.
      destruct (forwarded source dest (ev r)) as [e|] eqn:Ef;
        [|now elim (Hr E0)].
      cbn [bind]. destruct (negb (rc r =? - EAGAIN)); [apply IH; assumption|eauto].
    + cbn [bind]. destruct (negb (rc r =? - EAGAIN)); [apply IH; assumption|eauto].
Qed.

(** X5. [mainloop] returns as soon as the poll script holds a wake that
    stops it (a zero return or the signalfd ready), provided every
    successful read carries an event that [handle_event] can dispatch. *)
Theorem mainloop_returns (source : libevdev) (dest : evemu_device) (w : world) :
  Exists (fun p => stops p = true) (polls w) ->
  Forall (dispatchable source dest) (reads w) ->
  exists st w', mainloop source dest w = Returns (st, w').
Proof.
  unfold mainloop. generalize (reads w), (out w).
  induction (polls w) as [|p ps IH]; intros rs log He Hd.
  - inversion He.
  - cbn [mainloop_from].
    destruct (poll_ret p =? 0) eqn:E1; [eauto|].
    destruct (negb (revents_sig p =? 0)) eqn:E2; [eauto|].
    destruct (drain_returns source dest rs ps log Hd) as [o [w1 Ed]].
    rewrite Ed. cbn [bind fst snd]. destruct o as [status|]; [eauto|].
    apply IH.
    + inversion He as [? ? Hs|? ? Ht]; subst; [|assumption].
      unfold stops in Hs. rewrite E1, E2 in Hs. discriminate.
    + apply drain_trace in Ed. destruct Ed as [_ [c [err [Hc _]]]].
      rewrite Hc in Hd. apply Forall_app in Hd. tauto.
Qed.

Lemma mainloop_returns_witness :
  exists st w', mainloop Scenario.source Scenario.dest Scenario.bursts = Returns (st, w').
Proof.
  apply (mainloop_returns Scenario.source Scenario.dest Scenario.bursts).
  - right. right. left. reflexivity.
  - repeat constructor; intros _; vm_compute; discriminate.
Defined.

(** ** The session around the loop *)

Lemma grabbed_after_app held l1 l2 :
  grabbed_after held (l1 ++ l2) = grabbed_after (grabbed_after held l1) l2.
Proof.
  revert held. induction l1 as [|a l1 IH]; intros held; [reflexivity|].
  destruct a; cbn [app grabbed_after]; apply IH.
Qed.

Lemma grabbed_after_quiet held l :
  Forall quiet l -> grabbed_after held l = held.
Proof.
  induction 1 as [|a l Ha _ IH]; [reflexivity|].
  destruct a; cbn in Ha |- *; try contradiction; exact IH.
Qed.

Lemma loop_actions_quiet log err :
  Forall relaying log ->
  (err = [] \/ exists msg, err = [Stderr msg]) ->
  Forall quiet (log ++ err).
Proof.
  intros Hl He. apply Forall_app. split.
  - eapply Forall_impl; [|exact Hl]. intros a. destruct a; cbn; tauto.
  - destruct He as [->|[msg ->]]; repeat constructor.
Qed.

(** The trace up to the loop: the banner, the warnings and the grab. *)
Lemma at_loop_trace (e : env) (w0 : world) :
  at_loop e = Returns w0 ->
  polls w0 = polls (events e) /\ reads w0 = reads (events e) /\
  exists warns,
    out w0 = out (events e) ++ Stdout "Mapping" :: warns
               ++ [Grab (libevdev_grab e)] /\
    Forall quiet warns /\
    (In (Stdout "Warning: Nyquist not met on X") warns <->
     libevdev_get_abs_resolution (source e) ABS_X
       < 2 * evemu_get_abs_resolution (dev e) ABS_X) /\
    (In (Stdout "Warning: Nyquist not met on Y") warns <->
     libevdev_get_abs_resolution (source e) ABS_Y
       < 2 * evemu_get_abs_resolution (dev e) ABS_Y).
Proof.
  unfold at_loop, nyquist, int_mul.
  destruct (in_int (evemu_get_abs_resolution (dev e) ABS_X * 2));
    cbn [of_option bind]; [|discriminate].
  destruct (in_int (evemu_get_abs_resolution (dev e) ABS_Y * 2));
    cbn [of_option bind]; [|discriminate].
  intros H. injection H as <-.
  split; [destruct (_ <? _), (_ <? _); reflexivity|].
  split; [destruct (_ <? _), (_ <? _); reflexivity|].
  exists ((if libevdev_get_abs_resolution (source e) ABS_X
              <? evemu_get_abs_resolution (dev e) ABS_X * 2
           then [Stdout "Warning: Nyquist not met on X"] else [])
          ++ (if libevdev_get_abs_resolution (source e) ABS_Y
                 <? evemu_get_abs_resolution (dev e) ABS_Y * 2
              then [Stdout "Warning: Nyquist not met on Y"] else [])).
  destruct (Z.ltb_spec (libevdev_get_abs_resolution (source e) ABS_X)
              (evemu_get_abs_resolution (dev e) ABS_X * 2)) as [HX|HX];
  destruct (Z.ltb_spec (libevdev_get_abs_resolution (source e) ABS_Y)
              (evemu_get_abs_resolution (dev e) ABS_Y * 2)) as [HY|HY];
    cbn [emit polls reads out app In];
    (split; [now rewrite <- !app_assoc|]);
    (split; [repeat constructor|]);
    split; split; intros H; try lia; try tauto;
    try (destruct H as [H|H]; [discriminate|]);
    try (destruct H as [H|H]; [discriminate|]); try contradiction.
Qed.

(** X6. After a good startup, and when twice the destination's
    resolution fits [int] on both axes, [main] prints the banner, then
    the warning for X exactly when the source's X resolution is below
    twice the destination's, then the warning for Y likewise, then makes
    the grab call and runs the loop on the untouched event scripts. A
    warning changes nothing else: the session goes on to the loop, the
    ungrab call and the exit status 0. *)
Theorem nyquist_is_advisory (e : env) :
  startup_ok e = true ->
  in_int (evemu_get_abs_resolution (dev e) ABS_X * 2) = true ->
  in_int (evemu_get_abs_resolution (dev e) ABS_Y * 2) = true ->
  main e =
  (r <- mainloop (source e) (dev e)
          (mk_world (polls (events e)) (reads (events e))
             (out (events e)
              ++ [Stdout "Mapping"]
              ++ (if libevdev_get_abs_resolution (source e) ABS_X
                     <? 2 * evemu_get_abs_resolution (dev e) ABS_X
                  then [Stdout "Warning: Nyquist not met on X"] else [])
              ++ (if libevdev_get_abs_resolution (source e) ABS_Y
                     <? 2 * evemu_get_abs_resolution (dev e) ABS_Y
                  then [Stdout "Warning: Nyquist not met on Y"] else [])
              ++ [Grab (libevdev_grab e)])) ;;
   Returns (0, emit Ungrab (snd r))).
Proof.
  intros Hs HX HY. rewrite (main_startup_ok e Hs).
  unfold at_loop, nyquist, int_mul. rewrite HX, HY. cbn [of_option bind].
  rewrite !(Z.mul_comm 2).
  destruct (_ <? _), (_ <? _); unfold emit;
    cbn [polls reads out app]; rewrite <- ?app_assoc; reflexivity.
Qed.

Lemma nyquist_is_advisory_witness :
  main Scenario.undersampled =
  (r <- mainloop (source Scenario.undersampled) (dev Scenario.undersampled)
          (mk_world (polls (events Scenario.undersampled))
             (reads (events Scenario.undersampled))
             (out (events Scenario.undersampled)
              ++ [Stdout "Mapping"]
              ++ (if libevdev_get_abs_resolution (source Scenario.undersampled) ABS_X
                     <? 2 * evemu_get_abs_resolution (dev Scenario.undersampled) ABS_X
                  then [Stdout "Warning: Nyquist not met on X"] else [])
              ++ (if libevdev_get_abs_resolution (source Scenario.undersampled) ABS_Y
                     <? 2 * evemu_get_abs_resolution (dev Scenario.undersampled) ABS_Y
                  then [Stdout "Warning: Nyquist not met on Y"] else [])
              ++ [Grab (libevdev_grab Scenario.undersampled)])) ;;
   Returns (0, emit Ungrab (snd r))).
Proof.
  apply (nyquist_is_advisory Scenario.undersampled); reflexivity.
Defined.

(** X7. With an argument count other than 5, or a second argument other
    than "dest", or a fourth other than "source", [main] prints the usage
    and exits with 1, whatever the files and devices are. *)
Theorem bad_arguments_print_usage (e : env) :
  List.length (argv e) <> 5%nat \/ arg e 1 <> "dest"%string
  \/ arg e 3 <> "source"%string ->
  main e = Returns (1, emit (Stdout "usage") (events e)).
Proof.
  intros H. unfold main, exit_with, streq.
  destruct (Z.eqb_spec (Z.of_nat (List.length (argv e))) 5) as [E1|N1];
    [|reflexivity].
  destruct (String.eqb_spec (arg e 1) "dest") as [E2|N2];
    [|reflexivity].
  destruct (String.eqb_spec (arg e 3) "source") as [E3|N3];
    [|reflexivity].
  exfalso. destruct H as [H|[H|H]]; [lia|contradiction|contradiction].
Qed.

Lemma bad_arguments_print_usage_witness :
  main Scenario.no_arguments = Returns (1, emit (Stdout "usage") (events Scenario.no_arguments)).
Proof.
  apply bad_arguments_print_usage. left. cbn. lia.
Defined.

(** X8. When a startup step fails, [main] exits with 1 after a single
    message: no event is polled, read or played. *)
Theorem startup_failure_reads_nothing (e : env) :
  startup_ok e = false ->
  exists a w,
    main e = Returns (1, w) /\ is_message a /\
    out w = out (events e) ++ [a] /\
    polls w = polls (events e) /\ reads w = reads (events e).
Proof.
  intros Hs. destruct (main_startup_failed e Hs) as [a [Ha Hm]].
  exists a, (emit a (events e)). repeat split; assumption.
Qed.

Lemma startup_failure_reads_nothing_witness :
  exists a w,
    main Scenario.no_recording = Returns (1, w) /\ is_message a /\
    out w = out (events Scenario.no_recording) ++ [a] /\
    polls w = polls (events Scenario.no_recording) /\
    reads w = reads (events Scenario.no_recording).
Proof.
  apply startup_failure_reads_nothing. reflexivity.
Defined.

(** X9. In a session whose grab call succeeded, the device is grabbed
    after every action of the loop, up to the ungrab call. *)
Theorem grab_held_through_loop (e : env) (status : Z) (w : world) :
  main e = Returns (status, w) ->
  startup_ok e = true ->
  libevdev_grab e = 0 ->
  exists pre loop,
    out w = pre ++ Grab 0 :: loop ++ [Ungrab] /\
    forall l1 l2 held, loop = l1 ++ l2 ->
      grabbed_after held (pre ++ Grab 0 :: l1) = true.
Proof.
  intros Hm Hs Hg. rewrite (main_startup_ok e Hs) in Hm.
  destruct (at_loop e) as [w0| |] eqn:H0; cbn [bind] in Hm; try discriminate.
  destruct (mainloop (source e) (dev e) w0) as [[st w1]| |] eqn:Hl;
    cbn [bind] in Hm; try discriminate.
  injection Hm as _ <-. cbn [snd emit out].
  destruct (at_loop_trace e w0 H0) as [_ [_ [warns [Ho _]]]].
  apply mainloop_from_trace in Hl.
  destruct Hl as [_ [c [err [_ [_ [Ho1 He]]]]]].
  rewrite Hg in Ho.
  exists (out (events e) ++ Stdout "Mapping" :: warns),
         (relay (source e) (dev e) c ++ err).
  split.
  - rewrite Ho1, Ho. rewrite <- !app_assoc. cbn [app]. rewrite <- !app_assoc.
    reflexivity.
  - intros l1 l2 held Hl.
    rewrite grabbed_after_app. cbn [grabbed_after Z.eqb].
    apply grabbed_after_quiet.
    assert (Hq : Forall quiet (l1 ++ l2)).
    { rewrite <- Hl. apply loop_actions_quiet; [apply relay_relaying|].
      destruct He as [[_ ->]|[_ Hx]]; [now left|now right]. }
    apply Forall_app in Hq. tauto.
Qed.

Lemma grab_held_through_loop_witness :
  exists pre loop,
    [Stdout "Mapping"; Grab 0; Play Scenario.key;
     Stdout "0: mapping 50 to 25"; Play (set_value Sample.touch 25);
     Stdout "0: mapping 200 to 100"; Play (set_value Scenario.far_touch 50);
     Ungrab]%string
    = pre ++ Grab 0 :: loop ++ [Ungrab] /\
    forall l1 l2 held, loop = l1 ++ l2 ->
      grabbed_after held (pre ++ Grab 0 :: l1) = true.
Proof.
  apply (grab_held_through_loop Scenario.started 0
           (mk_world [] []
              [Stdout "Mapping"; Grab 0; Play Scenario.key;
               Stdout "0: mapping 50 to 25"; Play (set_value Sample.touch 25);
               Stdout "0: mapping 200 to 100";
               Play (set_value Scenario.far_touch 50); Ungrab]%string)).
  - vm_compute. reflexivity.
  - reflexivity.
  - reflexivity.
Defined.

(** X10. In a run whose grab call failed, the device is free after every
    action of [main]: the whole session relays events without the grab. *)
Theorem failed_grab_is_never_held (e : env) (status : Z) (w : world) :
  main e = Returns (status, w) ->
  libevdev_grab e <> 0 ->
  exists new, out w = out (events e) ++ new /\ never_grabbed new.
Proof.
  intros Hm Hg. destruct (startup_ok e) eqn:Hs.
  - rewrite (main_startup_ok e Hs) in Hm.
    destruct (at_loop e) as [w0| |] eqn:H0; cbn [bind] in Hm; try discriminate.
    destruct (mainloop (source e) (dev e) w0) as [[st w1]| |] eqn:Hl;
      cbn [bind] in Hm; try discriminate.
    injection Hm as _ <-. cbn [snd emit out].
    destruct (at_loop_trace e w0 H0) as [_ [_ [warns [Ho [Hq _]]]]].
    apply mainloop_from_trace in Hl.
    destruct Hl as [_ [c [err [_ [_ [Ho1 He]]]]]].
    exists (Stdout "Mapping" :: warns ++ Grab (libevdev_grab e)
              :: (relay (source e) (dev e) c ++ err) ++ [Ungrab]).
    split.
    + rewrite Ho1, Ho. rewrite <- !app_assoc. cbn [app].
      rewrite <- !app_assoc. reflexivity.
    + assert (Hall : forall l, 
        Forall (fun a => quiet a \/ a = Ungrab \/ a = Grab (libevdev_grab e)) l ->
        forall held, held = false -> grabbed_after held l = false).
      { induction 1 as [|a l Ha _ IH]; intros held ->; [reflexivity|].
        destruct Ha as [Ha|[->| ->]].
        - destruct a; cbn in Ha |- *; try contradiction; now apply IH.
        - cbn. now apply IH.
        - cbn. apply Z.eqb_neq in Hg. rewrite Hg. now apply IH. }
      intros l1 l2 Hsplit. apply Hall; [|reflexivity].
      assert (Hf : Forall (fun a => quiet a \/ a = Ungrab
                                    \/ a = Grab (libevdev_grab e)) (l1 ++ l2)).
      { rewrite <- Hsplit. constructor; [left; exact I|].
        apply Forall_app. split.
        - eapply Forall_impl; [|exact Hq]. tauto.
        - constructor; [tauto|]. apply Forall_app. split.
          + eapply Forall_impl;
              [|apply loop_actions_quiet; [apply relay_relaying|]].
            * tauto.
            * destruct He as [[_ ->]|[_ Hx]]; [now left|now right].
          + constructor; [tauto|constructor]. }
      apply Forall_app in Hf. tauto.
  - destruct (main_startup_failed e Hs) as [a [Ha Hm']].
    rewrite Hm' in Hm. injection Hm as _ <-.
    exists [a]. split; [reflexivity|]. now apply message_never_grabs.
Qed.

Lemma failed_grab_is_never_held_witness :
  exists new,
    [Stdout "Mapping"; Grab (-16); Play Scenario.key;
     Stdout "0: mapping 50 to 25"; Play (set_value Sample.touch 25);
     Stdout "0: mapping 200 to 100"; Play (set_value Scenario.far_touch 50);
     Ungrab]%string
    = out (events Scenario.busy) ++ new /\ never_grabbed new.
Proof.
  apply (failed_grab_is_never_held Scenario.busy 0
           (mk_world [] []
              [Stdout "Mapping"; Grab (-16); Play Scenario.key;
               Stdout "0: mapping 50 to 25"; Play (set_value Sample.touch 25);
               Stdout "0: mapping 200 to 100";
               Play (set_value Scenario.far_touch 50); Ungrab]%string)).
  - vm_compute. reflexivity.
  - cbn. lia.
Defined.

(** ** Range and edge cases of the transform *)

Lemma clamp_bounds lo hi i :
  lo <= hi -> lo <= max lo (min hi i) <= hi.
Proof. intros H. rewrite max_Zmax, min_Zmin. lia. Qed.

Lemma clamp_inverted lo hi i : hi < lo -> max lo (min hi i) = lo.
Proof. intros H. rewrite max_Zmax, min_Zmin. lia. Qed.

Lemma map_value_cast src dst v r :
  map_value src dst v = Some r ->
  exists off sw dw i,
    int_sub v (minimum src) = Some off /\
    int_sub (maximum src) (minimum src) = Some sw /\
    int_sub (maximum dst) (minimum dst) = Some dw /\
    to_int (scaled off sw dw (resolution src) (resolution dst) (minimum dst))
      = Some i /\
    r = max (minimum dst) (min (maximum dst) i).
Proof.
  rewrite map_value_unfold.
  destruct (int_sub v (minimum src)) as [off|]; [|discriminate].
  destruct (int_sub (maximum src) (minimum src)) as [sw|]; [|discriminate].
  destruct (int_sub (maximum dst) (minimum dst)) as [dw|]; [|discriminate].
  destruct (to_int _) as [i|] eqn:Ei; [|discriminate].
  intros H. injection H as <-. exists off, sw, dw, i. auto.
Qed.

(** X12. A defined result of the transform lies within the destination
    range, whatever the input value. *)
Theorem map_value_clamped (src dst : input_absinfo) (v r : Z) :
  map_value src dst v = Some r ->
  minimum dst <= maximum dst ->
  minimum dst <= r <= maximum dst.
Proof.
  intros H Hle. apply map_value_cast in H.
  destruct H as [off [sw [dw [i [_ [_ [_ [_ ->]]]]]]]].
  now apply clamp_bounds.
Qed.

Lemma map_value_clamped_witness :
  minimum Sample.target <= 50 <= maximum Sample.target.
Proof.
  apply (map_value_clamped Sample.pad Sample.target 200 50).
  - vm_compute. reflexivity.
  - cbn. lia.
Defined.

(** X13. On a destination range whose maximum is below its minimum, every
    defined result is the minimum. *)
Theorem map_value_inverted_range (src dst : input_absinfo) (v r : Z) :
  map_value src dst v = Some r ->
  maximum dst < minimum dst ->
  r = minimum dst.
Proof.
  intros H Hlt. apply map_value_cast in H.
  destruct H as [off [sw [dw [i [_ [_ [_ [_ ->]]]]]]]].
  now apply clamp_inverted.
Qed.

Lemma map_value_inverted_range_witness : 100 = minimum (mk_absinfo 100 0 5).
Proof.
  apply (map_value_inverted_range Sample.pad (mk_absinfo 100 0 5) 50 100).
  - vm_compute. reflexivity.
  - cbn. lia.
Defined.

Lemma fdiv_by_zero x s : nonfinite (fdiv x (S754_zero s)).
Proof. destruct x as [sx|sx| |sx mx ex]; exact I. Qed.

Lemma fmul_nonfinite x y : nonfinite x -> nonfinite (fmul x y).
Proof.
  destruct x as [sx|sx| |sx mx ex]; try contradiction; intros _;
    destruct y as [sy|sy| |sy my ey]; exact I.
Qed.

Lemma fadd_nonfinite x y : nonfinite x -> nonfinite (fadd x y).
Proof.
  destruct x as [sx|sx| |sx mx ex]; try contradiction; intros _;
    destruct y as [sy|sy| |sy my ey]; try exact I;
    destruct sx, sy; exact I.
Qed.

Lemma to_int_nonfinite x : nonfinite x -> to_int x = None.
Proof. destruct x; try contradiction; reflexivity. Qed.

(** X14. With a source resolution of zero the transform has no defined
    result for any value: the division yields an infinity or a NaN, and
    the cast of it to [int] is undefined. *)
Theorem map_value_zero_resolution (src dst : input_absinfo) (v : Z) :
  resolution src = 0 -> map_value src dst v = None.
Proof.
  intros H0. rewrite map_value_unfold.
  destruct (int_sub v (minimum src)) as [off|]; [|reflexivity].
  destruct (int_sub (maximum src) (minimum src)) as [sw|]; [|reflexivity].
  destruct (int_sub (maximum dst) (minimum dst)) as [dw|]; [|reflexivity].
  rewrite to_int_nonfinite; [reflexivity|].
  unfold scaled. rewrite H0. apply fadd_nonfinite, fadd_nonfinite, fmul_nonfinite.
  change (of_int 0) with (S754_zero false). apply fdiv_by_zero.
Qed.

Lemma map_value_zero_resolution_witness :
  map_value (mk_absinfo 0 100 0) Sample.target 50 = None.
Proof. apply map_value_zero_resolution. reflexivity. Defined.

(** X15. The transform depends on the source range and the value only
    through the offset from the minimum and the width: shifting the
    three by a same amount changes nothing. *)
Theorem map_value_shift (src dst : input_absinfo) (v c : Z) :
  map_value (mk_absinfo (minimum src + c) (maximum src + c) (resolution src))
            dst (v + c)
  = map_value src dst v.
Proof.
  unfold map_value. cbn [minimum maximum resolution]. unfold int_sub.
  replace (v + c - (minimum src + c)) with (v - minimum src) by lia.
  replace (maximum src + c - (minimum src + c))
    with (maximum src - minimum src) by lia.
  reflexivity.
Qed.

(** ** Saturation, zero gain and the dispatcher *)

Lemma map_value_cast_mono src dst v1 v2 r1 r2 :
  int_typed src -> int_typed dst ->
  0 < resolution src -> 0 <= resolution dst ->
  v1 <= v2 ->
  map_value src dst v1 = Some r1 ->
  map_value src dst v2 = Some r2 ->
  exists i1 i2,
    r1 = max (minimum dst) (min (maximum dst) i1) /\
    r2 = max (minimum dst) (min (maximum dst) i2) /\
    i1 <= i2.
Proof.
  intros [_ [_ Hsr]] [Hdm [_ Hdr]] Hs Hd Hv H1 H2.
  apply map_value_cast in H1, H2.
  destruct H1 as [o1 [sw [dw [i1 [E1 [E3 [E4 [T1 ->]]]]]]]].
  destruct H2 as [o2 [sw' [dw' [i2 [E2 [E3' [E4' [T2 ->]]]]]]]].
  rewrite E3 in E3'. injection E3' as <-. rewrite E4 in E4'. injection E4' as <-.
  apply int_sub_Some in E1, E2, E3, E4.
  destruct E1 as [-> I1], E2 as [-> I2], E3 as [_ I3], E4 as [_ I4].
  exists i1, i2. split; [reflexivity|]. split; [reflexivity|].
  destruct (scaled_correct (v1 - minimum src) sw dw (resolution src)
              (resolution dst) (minimum dst)) as [N1 S1]; try assumption; try lia.
  destruct (scaled_correct (v2 - minimum src) sw dw (resolution src)
              (resolution dst) (minimum dst)) as [N2 S2]; try assumption; try lia.
  rewrite (to_int_Rtrunc _ _ N1) in T1. rewrite (to_int_Rtrunc _ _ N2) in T2.
  destruct (in_int (Rtrunc (B2R (scaled (v1 - minimum src) sw dw _ _ _))));
    [|discriminate].
  destruct (in_int (Rtrunc (B2R (scaled (v2 - minimum src) sw dw _ _ _))));
    [|discriminate].
  injection T1 as <-. injection T2 as <-.
  apply Rtrunc_mono.
  apply (scaled_to_mono (v1 - minimum src) (v2 - minimum src) sw dw
           (resolution src) (resolution dst) (minimum dst));
    [lia|lia|lia|exact S1|exact S2].
Qed.

(** X16. Saturation is kept: once a value maps to the destination
    maximum so does every larger value, and once a value maps to the
    minimum so does every smaller one. *)
Theorem map_value_saturates (src dst : input_absinfo) (v1 v2 r1 r2 : Z) :
  int_typed src -> int_typed dst ->
  0 < resolution src -> 0 < resolution dst ->
  minimum dst <= maximum dst ->
  v1 <= v2 ->
  map_value src dst v1 = Some r1 ->
  map_value src dst v2 = Some r2 ->
  (r1 = maximum dst -> r2 = maximum dst) /\
  (r2 = minimum dst -> r1 = minimum dst).
Proof.
  intros Ts Td Hs Hd Hle Hv H1 H2.
  destruct (map_value_cast_mono src dst v1 v2 r1 r2 Ts Td Hs ltac:(lia) Hv H1 H2)
    as [i1 [i2 [-> [-> Hi]]]].
  rewrite !max_Zmax, !min_Zmin. lia.
Qed.

Lemma map_value_saturates_witness :
  (50 = maximum Sample.target -> 50 = maximum Sample.target) /\
  (50 = minimum Sample.target -> 50 = minimum Sample.target).
Proof.
  apply (map_value_saturates Sample.pad Sample.target 200 300 50 50).
  - repeat split; reflexivity.
  - repeat split; reflexivity.
  - cbn; lia.
  - cbn; lia.
  - cbn; lia.
  - lia.
  - vm_compute. reflexivity.
  - vm_compute. reflexivity.
Defined.

Lemma half_bpow z : (IZR z / 2 = IZR z * bpow (-1))%R.
Proof.
  rewrite <- (Z.opp_involutive (-1)), bpow_opp. change (- -1) with 1.
  now rewrite bpow_1.
Qed.

Lemma quot2_between lo hi :
  lo <= hi -> lo <= Z.quot (lo + hi) 2 <= hi.
Proof.
  intros Hle.
  assert (Hq : 2 * Z.quot (lo + hi) 2 + Z.rem (lo + hi) 2 = lo + hi)
    by (symmetry; apply Z.quot_rem'; lia).
  pose proof (Z.rem_bound_abs (lo + hi) 2 ltac:(lia)) as Hrem.
  assert (Hsgn : 0 <= Z.rem (lo + hi) 2 * (lo + hi))
    by (apply Z.rem_sign_mul; lia).
  nia.
Qed.

(** X17. With a destination resolution of zero every value maps to the
    midpoint of the destination range, truncated toward zero. *)
Theorem map_value_zero_gain (src dst : input_absinfo) (v : Z) :
  int_typed src -> int_typed dst ->
  resolution src <> 0 ->
  resolution dst = 0 ->
  minimum dst <= maximum dst ->
  in_int (v - minimum src) = true ->
  in_int (maximum src - minimum src) = true ->
  in_int (maximum dst - minimum dst) = true ->
  map_value src dst v = Some (Z.quot (minimum dst + maximum dst) 2).
Proof.
  intros [_ [_ Hsr]] [Hdm [HdM Hdr]] Nz Hz Hle Io Isw Idw.
  pose proof (quot2_between _ _ Hle) as Hin.
  rewrite map_value_unfold. unfold int_sub. rewrite Io, Isw, Idw.
  destruct (scaled_correct (v - minimum src) (maximum src - minimum src)
              (maximum dst - minimum dst) (resolution src) (resolution dst)
              (minimum dst))
    as [N [x1 [x2 [x3 [R1 [R2 [R3 R4]]]]]]]; try assumption.
  rewrite (to_int_Rtrunc _ _ N).
  rewrite Hz, Rmult_0_r in R2. apply rounds_0 in R2. subst x2.
  rewrite Rplus_0_l, half_bpow in R3.
  apply in_int_bounds in Idw, Hdm, HdM.
  apply rounds_exact in R3; [|change (2 ^ 53) with 9007199254740992; lia].
  subst x3.
  replace (IZR (maximum dst - minimum dst) * bpow (-1) + IZR (minimum dst))%R
    with (IZR (minimum dst + maximum dst) * bpow (-1))%R in R4
    by (rewrite <- !half_bpow, minus_IZR, plus_IZR; field).
  apply rounds_exact in R4; [|change (2 ^ 53) with 9007199254740992; lia].
  rewrite R4, <- half_bpow, Rtrunc_half.
  replace (in_int (Z.quot (minimum dst + maximum dst) 2)) with true
    by (symmetry; apply in_int_bounds; lia).
  rewrite max_Zmax, min_Zmin. f_equal. lia.
Qed.

Lemma map_value_zero_gain_witness :
  map_value Sample.pad (mk_absinfo 0 50 0) 80
  = Some (Z.quot (minimum (mk_absinfo 0 50 0) + maximum (mk_absinfo 0 50 0)) 2).
Proof.
  apply (map_value_zero_gain Sample.pad (mk_absinfo 0 50 0) 80).
  - repeat split; reflexivity.
  - repeat split; reflexivity.
  - cbn; lia.
  - reflexivity.
  - cbn; lia.
  - reflexivity.
  - reflexivity.
  - reflexivity.
Defined.

(** X19. The value of a positional [EV_ABS] event that [handle_event]
    plays lies within the destination range of its axis; the event is
    played after one line on stdout. *)
Theorem positional_value_in_range (source : libevdev) (dest : evemu_device)
    (event : input_event) (w w' : world) :
  handle_event source dest event w = Returns w' ->
  type event = EV_ABS -> positional (code event) = true ->
  minimum (dest (code event)) <= maximum (dest (code event)) ->
  exists event' line,
    w' = emit (Play event') (emit (Stdout line) w) /\
    minimum (dest (code event)) <= value event' <= maximum (dest (code event)).
Proof.
  intros H Ht Hp Hle. unfold handle_event, pass_event in H.
  rewrite Ht, Hp in H. cbn [Z.eqb negb] in H.
  change (negb (EV_ABS =? EV_ABS)) with false in H. cbn iota in H.
  unfold map_event in H.
  destruct (source (code event)) as [src|]; [|discriminate].
  destruct (cast_value src (dest (code event)) (value event)) as [i|];
    [|discriminate].
  destruct (map_value src (dest (code event)) (value event)) as [r|] eqn:Em;
    [|discriminate].
  cbn [of_option bind fst snd] in H. injection H as <-.
  exists (set_value event r), (mapping_line (code event) (value event) i).
  split; [reflexivity|]. cbn [set_value value].
  apply map_value_cast in Em.
  destruct Em as [off [sw [dw [j [_ [_ [_ [_ ->]]]]]]]].
  now apply clamp_bounds.
Qed.

Lemma positional_value_in_range_witness :
  exists event' line,
    emit (Play (set_value Scenario.far_touch 50))
         (emit (Stdout "0: mapping 200 to 100") Scenario.bursts)
      = emit (Play event') (emit (Stdout line) Scenario.bursts) /\
    minimum (Scenario.dest (code Scenario.far_touch)) <= value event'
      <= maximum (Scenario.dest (code Scenario.far_touch)).
Proof.
  apply (positional_value_in_range Scenario.source Scenario.dest Scenario.far_touch Scenario.bursts).
  - vm_compute. reflexivity.
  - reflexivity.
  - reflexivity.
  - cbn. lia.
Defined.

(** ** The cleanups *)

Lemma startup_ok_split (e : env) :
  startup_ok e =
  args_ok e && fopen_dest e && negb (open_source e <? 0)
  && negb (libevdev_new_from_fd e <? 0) && negb (evemu_read e <? 0)
  && negb (evemu_create_managed e <? 0) && negb (open_destfd e <? 0).
Proof. reflexivity. Qed.

(** X20. When a session that got to the loop returns, the five handlers
    release the destination descriptor, the libevdev device, the evemu
    device, the source descriptor and the recording file, in that
    order: the reverse of the declarations. *)
Theorem started_session_releases_all (e : env) :
  startup_ok e = true ->
  main_releases e
  = [Close (open_destfd e); LibevdevFree; EvemuDestroy;
     Close (open_source e); Fclose].
Proof.
  rewrite startup_ok_split, !andb_true_iff, !negb_true_iff.
  intros [[[[[[H1 H2] H3] H4] H5] H6] H7].
  unfold main_releases, main_locals. rewrite H1, H2, H3, H4, H5, H6.
  reflexivity.
Qed.

Lemma started_session_releases_all_witness :
  main_releases Scenario.started
  = [Close (open_destfd Scenario.started); LibevdevFree; EvemuDestroy;
     Close (open_source Scenario.started); Fclose].
Proof. apply started_session_releases_all. reflexivity. Defined.

(** X21. [fclose] is called exactly when the recording was opened, and
    [libevdev_free] and [evemu_destroy] exactly when the libevdev device
    was created. *)
Theorem releases_match_acquisitions (e : env) :
  (In Fclose (main_releases e) <-> args_ok e && fopen_dest e = true) /\
  (In LibevdevFree (main_releases e) <->
   args_ok e && fopen_dest e && negb (open_source e <? 0)
   && negb (libevdev_new_from_fd e <? 0) = true) /\
  (In EvemuDestroy (main_releases e) <-> In LibevdevFree (main_releases e)).
Proof.
  unfold main_releases, main_locals.
  destruct (args_ok e), (fopen_dest e), (open_source e <? 0),
    (libevdev_new_from_fd e <? 0), (evemu_read e <? 0),
    (evemu_create_managed e <? 0); cbn;
    repeat split; intros H; try discriminate; try tauto;
    repeat (destruct H as [H|H]; try discriminate); auto 10.
Qed.

(** X22. After any failed startup the first handler to run calls
    [close] on a negative descriptor: [closep] has no test of its
    argument, and [destfd] is still -1 or holds the failed [open]. *)
Theorem failed_startup_closes_invalid_descriptor (e : env) :
  startup_ok e = false ->
  exists fd rest, main_releases e = Close fd :: rest /\ fd < 0.
Proof.
  intros Hs. rewrite startup_ok_split in Hs.
  unfold main_releases, main_locals.
  destruct (args_ok e); cbn [negb]; [|exists (-1); eexists; split; [reflexivity|lia]].
  destruct (fopen_dest e); cbn [negb]; [|exists (-1); eexists; split; [reflexivity|lia]].
  destruct (open_source e <? 0); [exists (-1); eexists; split; [reflexivity|lia]|].
  destruct (libevdev_new_from_fd e <? 0); [exists (-1); eexists; split; [reflexivity|lia]|].
  destruct (evemu_read e <? 0); [exists (-1); eexists; split; [reflexivity|lia]|].
  destruct (evemu_create_managed e <? 0); [exists (-1); eexists; split; [reflexivity|lia]|].
  cbn in Hs. apply negb_false_iff, Z.ltb_lt in Hs.
  exists (open_destfd e). eexists. split; [reflexivity|assumption].
Qed.

Lemma failed_startup_closes_invalid_descriptor_witness :
  exists fd rest, main_releases Scenario.no_recording = Close fd :: rest /\ fd < 0.
Proof. apply failed_startup_closes_invalid_descriptor. reflexivity. Defined.

(** ** Two earlier results, on a run *)

Lemma main_exit_status_witness :
  1 = if startup_ok Scenario.no_recording then 0 else 1.
Proof.
  apply (main_exit_status Scenario.no_recording 1
           (emit (Stderr "Failed to open source file") Scenario.bursts)).
  vm_compute. reflexivity.
Defined.

Lemma map_value_defined_witness :
  exists r, map_value Sample.coarse_pad Sample.fine_target 511 = Some r.
Proof.
  apply map_value_defined; cbn; try lia; reflexivity.
Defined.
